(** * Ability execution engine (plugin-abilities): a shallow embedding

    The development follows the TypeScript sources of the minimal abilities
    plugin:

    - [src/types/index.ts]            the data model (values, steps, executions);
    - [src/validator/index.ts]        [validateInputs];
    - [src/executor/index.ts]         [interpolateVariables], [runScript],
                                      [executeScriptStep], [buildExecutionOrder],
                                      [executeAbility];
    - [src/executor/execution-manager.ts]  the [ExecutionManager] class;
    - [src/plugin.ts]                 the enforcement gate [handleToolExecuteBefore]
                                      of the [AbilitiesPlugin] class.

    Strings are the UTF-8 bytes of the text.  The host (clock, identifier generator, process
    spawner, regular expression engine) is a parameter of the executor
    section; console output is not modelled. *)

From stdpp Require Import base strings list gmap pretty.
From Stdlib Require Import ZArith Lia Ascii.

Open Scope Z_scope.
#[local] Set Warnings "-register-all,-clear-no-such-hyp".

(** ** Data model (types/index.ts) *)

Module Types.

(** [Number.isSafeInteger(n)]: the integers every one of which is a number
    of its own, printed by [String] digit for digit. *)
Definition safe_integer (n : Z) : Prop :=
  Is_true ((-9007199254740992 <? n) && (n <? 9007199254740992)).

(** Input values are what a YAML or JSON caller can supply.  Numbers are
    taken to be safe integers.  An object value is a plain object with no
    [toString] member of its own; nothing reads its members.  An
    [InputValues] object ([Record<string, unknown>]) is a plain object too:
    the [gmap string Value] holds its own properties, and a read of a key
    it lacks goes on to [Object.prototype] (see [Js.read]). *)
Inductive Value : Type :=
  | VString (s : string)
  | VNumber (n : Z) (safe : safe_integer n)
  | VBool (b : bool)
  | VNull
  | VArray (items : list Value)
  | VObject.

Inductive InputType := TString | TNumber | TBoolean | TArray | TObject.

Record InputDefinition := {
  input_type : InputType;
  required : option bool;
  default_value : option Value;
  pattern : option string;
  enum : option (list string);
  minLength : option Z;
  maxLength : option Z;
  min : option Z;
  max : option Z;
}.

Record Validation := { exit_code : option Z }.

(** A step.  [step_type] is the tag the enforcement gate reads; the executor treats
    every step as a script step.  [on_failure] is accepted by the validator's
    schema and carried by the object; the executor never reads it. *)
Record Step := {
  id : string;
  step_type : string;
  run : string;
  cwd : option string;
  env : option (gmap string string);
  needs : option (list string);
  validation : option Validation;
  on_failure : option string;
}.

Record Ability := {
  name : string;
  description : string;
  inputs : option (list (string * InputDefinition));
  steps : list Step;
}.

Inductive ExecutionStatus := running | completed | failed.

(** The string each status is in the source:
    [type ExecutionStatus = 'running' | 'completed' | 'failed']. *)
Definition status_name (s : ExecutionStatus) : string :=
  match s with
  | running => "running"
  | completed => "completed"
  | failed => "failed"
  end.
Inductive StepStatus := step_completed | step_failed | step_skipped.

Record StepResult := {
  stepId : string;
  status : StepStatus;
  output : option string;
  error : option string;
  startedAt : Z;
  completedAt : Z;
  duration : Z;
}.

Record AbilityExecution := {
  exec_id : string;
  ability : Ability;
  exec_inputs : gmap string Value;
  exec_status : ExecutionStatus;
  currentStep : option Step;
  currentStepIndex : Z;
  completedSteps : list StepResult;
  pendingSteps : list Step;
  exec_startedAt : Z;
  exec_completedAt : option Z;
  exec_error : option string;
}.

Record ValidationError := {
  path : string;
  message : string;
  code : string;
}.

Record ExecutorContext := {
  ctx_cwd : string;
  ctx_env : gmap string string;
}.

#[global] Instance ExecutionStatus_eq_dec : EqDecision ExecutionStatus.
Proof. solve_decision. Defined.
#[global] Instance StepStatus_eq_dec : EqDecision StepStatus.
Proof. solve_decision. Defined.
#[global] Instance InputType_eq_dec : EqDecision InputType.
Proof. solve_decision. Defined.
#[global] Instance Validation_eq_dec : EqDecision Validation.
Proof. solve_decision. Defined.
#[global] Instance Step_eq_dec : EqDecision Step.
Proof. solve_decision. Defined.

End Types.
Import Types.

(** ** Dependency resolver (executor/index.ts, buildExecutionOrder) *)

Module Resolver.

(** The callback of [remaining.find]:
    [if (!step.needs || step.needs.length === 0) return true;
     return step.needs.every(dep => completed.has(dep))]. *)
Definition ready (done : gset string) (step : Step) : bool :=
  match needs step with
  | None => true
  | Some deps =>
      if decide (length deps = 0%nat) then true
      else forallb (λ dep, bool_decide (dep ∈ done)) deps
  end.

(** The [while (remaining.length > 0)] loop.  [list_find] yields the first
    element for which the callback holds together with its index; since the
    callback holds at no smaller index, that index is the one
    [remaining.indexOf(next)] returns, and [splice] deletes it.  Every round
    shortens [remaining] by one, so [length steps] rounds suffice. *)
Fixpoint order_loop (rounds : nat) (result : list Step) (done : gset string)
    (remaining : list Step) : list Step :=
  match rounds with
  | O => result
  | S rounds' =>
      if decide (length remaining = 0%nat) then result
      else
        match list_find (λ step, Is_true (ready done step)) remaining with
        | None => result
        | Some (i, next) =>
            order_loop rounds' (result ++ [next]) ({[id next]} ∪ done)
              (delete i remaining)
        end
  end.

Definition buildExecutionOrder (steps : list Step) : list Step :=
  order_loop (length steps) [] ∅ steps.

End Resolver.
Import Resolver.

(** ** JavaScript string helpers *)

Module Js.

(** [a || b] on strings: the empty string and [undefined] are falsy. *)
Definition str_or (a : option string) (b : string) : string :=
  match a with
  | Some s => if decide (s = "") then b else s
  | None => b
  end.

(** [String(value)]. *)
Fixpoint toString (v : Value) : string :=
  match v with
  | VString s => s
  | VNumber n _ => pretty n
  | VBool true => "true"
  | VBool false => "false"
  | VNull => "null"
  | VArray items =>
      String.concat ","
        (map (λ item, match item with VNull => "" | _ => toString item end) items)
  | VObject => "[object Object]"
  end.

(** [Array.isArray(value) ? 'array' : typeof value]. *)
Definition actualType (v : Value) : string :=
  match v with
  | VString _ => "string"
  | VNumber _ _ => "number"
  | VBool _ => "boolean"
  | VNull => "object"
  | VArray _ => "array"
  | VObject => "object"
  end.

(** [s.length]: the number of UTF-16 code units of the text whose UTF-8
    bytes are [s].  A continuation byte adds nothing, the first byte of a
    four-byte sequence counts for the two units of a surrogate pair. *)
Definition utf16_units (c : ascii) : nat :=
  let n := nat_of_ascii c in
  if (n <? 128)%nat then 1%nat
  else if (n <? 192)%nat then 0%nat
  else if (n <? 240)%nat then 1%nat
  else 2%nat.

Fixpoint string_length (s : string) : nat :=
  match s with
  | EmptyString => 0%nat
  | String c s' => (utf16_units c + string_length s')%nat
  end.

(** The members of [Object.prototype] that a string key reaches: its
    functions, and the prototype itself under [__proto__]. *)
Inductive Member :=
  | Builtin (f : string)
  | ObjectPrototype.

Definition Object_prototype : list (string * Member) :=
  [ ("constructor", Builtin "Object");
    ("__defineGetter__", Builtin "__defineGetter__");
    ("__defineSetter__", Builtin "__defineSetter__");
    ("hasOwnProperty", Builtin "hasOwnProperty");
    ("__lookupGetter__", Builtin "__lookupGetter__");
    ("__lookupSetter__", Builtin "__lookupSetter__");
    ("isPrototypeOf", Builtin "isPrototypeOf");
    ("propertyIsEnumerable", Builtin "propertyIsEnumerable");
    ("toString", Builtin "toString");
    ("valueOf", Builtin "valueOf");
    ("__proto__", ObjectPrototype);
    ("toLocaleString", Builtin "toLocaleString") ].

Fixpoint member_named (key : string) (members : list (string * Member))
    : option Member :=
  match members with
  | [] => None
  | (k, m) :: members' =>
      if decide (k = key) then Some m else member_named key members'
  end.

(** What [object[key]] evaluates to on a plain object. *)
Inductive Read (A : Type) : Type :=
  | Own (a : A)
  | Inherited (m : Member)
  | Undefined.
Arguments Own {A} a.
Arguments Inherited {A} m.
Arguments Undefined {A}.

(** [object[key]], given the object's own property of that key if it has
    one: the own property first, then [Object.prototype]. *)
Definition read {A} (own : option A) (key : string) : Read A :=
  match own with
  | Some a => Own a
  | None =>
      match member_named key Object_prototype with
      | Some m => Inherited m
      | None => Undefined
      end
  end.

(** [String(m)] for a member of [Object.prototype]; a built-in function
    prints as V8 prints it. *)
Definition memberToString (m : Member) : string :=
  match m with
  | Builtin f => "function " +:+ f +:+ "() { [native code] }"
  | ObjectPrototype => "[object Object]"
  end.

(** [Array.isArray(value) ? 'array' : typeof value] for what a read gives. *)
Definition readType (r : Read Value) : string :=
  match r with
  | Own v => actualType v
  | Inherited (Builtin _) => "function"
  | Inherited ObjectPrototype => "object"
  | Undefined => "undefined"
  end.

Definition typeName (t : InputType) : string :=
  match t with
  | TString => "string"
  | TNumber => "number"
  | TBoolean => "boolean"
  | TArray => "array"
  | TObject => "object"
  end.

(** What a call produces: a value, or a thrown [Error] with its message. *)
Inductive Outcome (A : Type) : Type :=
  | Returned (a : A)
  | Thrown (msg : string).
Arguments Returned {A} a.
Arguments Thrown {A} msg.

End Js.
Import Js.

(** ** Interpolation (executor/index.ts, interpolateVariables) *)

Module Interpolation.

(** [\w] without the unicode flag: ASCII letters, digits and underscore. *)
Definition is_word_char (c : ascii) : bool :=
  let n := nat_of_ascii c in
  ((48 <=? n) && (n <=? 57) || (65 <=? n) && (n <=? 90)
   || (97 <=? n) && (n <=? 122) || (n =? 95))%nat.

(** Removes [p] from the front of [s] when [s] starts with it. *)
Fixpoint strip_prefix (p s : string) : option string :=
  match p with
  | EmptyString => Some s
  | String a p' =>
      match s with
      | String b s' => if decide (a = b) then strip_prefix p' s' else None
      | EmptyString => None
      end
  end.

(** The longest run of word characters at the front of [s], and what
    follows it: the greedy [\w+] (no shorter run can be followed by a
    closing brace, so backtracking never succeeds where this fails). *)
Fixpoint span_word (s : string) : string * string :=
  match s with
  | String c s' =>
      if is_word_char c then
        let '(w, rest) := span_word s' in (String c w, rest)
      else (EmptyString, s)
  | EmptyString => (EmptyString, EmptyString)
  end.

(** A match of [/\{\{inputs\.(\w+)\}\}/] at the front of [s]: the
    captured name. *)
Definition match_placeholder (s : string) : option string :=
  match strip_prefix "{{inputs." s with
  | Some rest =>
      let '(name, rest') := span_word rest in
      if decide (name = "") then None
      else match strip_prefix "}}" rest' with
           | Some _ => Some name
           | None => None
           end
  | None => None
  end.

(** The replacement callback:
    [(match, name) => inputs[name] !== undefined ? String(inputs[name]) : match]. *)
Definition replacement (inputs : gmap string Value) (name : string) : string :=
  match read (inputs !! name) name with
  | Own value => toString value
  | Inherited m => memberToString m
  | Undefined => "{{inputs." +:+ name +:+ "}}"
  end.

(** [text.replace(regex /g, callback)]: scan from the left; at a match emit
    the replacement and resume after the match ([skip] counts the matched
    characters still to pass over), otherwise copy one character. *)
Fixpoint replace_all (inputs : gmap string Value) (skip : nat) (s : string) : string :=
  match s with
  | EmptyString => EmptyString
  | String c s' =>
      match skip with
      | S k => replace_all inputs k s'
      | O =>
          match match_placeholder s with
          | Some name =>
              replacement inputs name
                +:+ replace_all inputs (10 + String.length name) s'
          | None => String c (replace_all inputs 0 s')
          end
      end
  end.

Definition interpolateVariables (text : string) (inputs : gmap string Value) : string :=
  replace_all inputs 0 text.

End Interpolation.
Import Interpolation.

(** ** The host *)

Module HostModel.

(** Options handed to [child_process.spawn]. *)
Record SpawnOptions := {
  spawn_cwd : string;
  spawn_env : gmap string string;
}.

(** What [spawn('sh', ['-c', command], options)] leads to, as [runScript]
    observes it: the call throws; or the ['close'] event comes first, with
    the data received so far and the exit code ([null] for a signal); or the
    ['error'] event comes first. *)
Inductive SpawnOutcome :=
  | SpawnThrows (msg : string)
  | ProcClose (stdout stderr : string) (exit : option Z)
  | ProcError (stdout : string) (msg : string).

(** The ambient runtime: a state [World] threaded through every effect. *)
Class Host := {
  World : Type;
  Date_now : World → Z * World;
  random_suffix : World → string * World;
  spawn : string → SpawnOptions → World → SpawnOutcome * World;
  process_cwd : World → string;
  process_env : World → gmap string string;
  (** [new RegExp(pattern).test(value)], for the patterns that
      [validateAbility] has checked to compile. *)
  regexp_test : string → string → bool;
}.

(** Computations over the world. *)
Definition M `{Host} (A : Type) : Type := World → A * World.

Definition ret `{Host} {A} (a : A) : M A := λ w, (a, w).

Definition bind `{Host} {A B} (m : M A) (k : A → M B) : M B :=
  λ w, let '(a, w') := m w in k a w'.

End HostModel.
Import HostModel.

Notation "x <- m ;; k" := (bind m (λ x, k))
  (at level 100, m at next level, right associativity).

(** ** Input validation (validator/index.ts, validateInputs) *)

Module Validator.
Section validator.
Context `{Host}.

Definition missing_input (name : string) : ValidationError :=
  {| path := "inputs." +:+ name;
     message := "Required input '" +:+ name +:+ "' is missing";
     code := "MISSING_INPUT" |}.

(** The checks made when the value is a string of the expected type. *)
Definition string_checks (name : string) (definition : InputDefinition)
    (value : string) : list ValidationError :=
  (match pattern definition with
   | Some p =>
       if decide (p = "") then []
       else if regexp_test p value then []
       else [ {| path := "inputs." +:+ name;
                 message := "Value '" +:+ value +:+ "' does not match pattern '"
                            +:+ p +:+ "'";
                 code := "PATTERN_MISMATCH" |} ]
   | None => []
   end) ++
  (match enum definition with
   | Some allowed =>
       if bool_decide (value ∈ allowed) then []
       else [ {| path := "inputs." +:+ name;
                 message := "Value '" +:+ value +:+ "' must be one of: "
                            +:+ String.concat ", " allowed;
                 code := "ENUM_MISMATCH" |} ]
   | None => []
   end) ++
  (match minLength definition with
   | Some n =>
       if decide (n ≠ 0 ∧ Z.of_nat (string_length value) < n)
       then [ {| path := "inputs." +:+ name;
                 message := "Value must be at least " +:+ pretty n +:+ " characters";
                 code := "MIN_LENGTH" |} ]
       else []
   | None => []
   end) ++
  (match maxLength definition with
   | Some n =>
       if decide (n ≠ 0 ∧ n < Z.of_nat (string_length value))
       then [ {| path := "inputs." +:+ name;
                 message := "Value must be at most " +:+ pretty n +:+ " characters";
                 code := "MAX_LENGTH" |} ]
       else []
   | None => []
   end).

(** The checks made when the value is a number of the expected type. *)
Definition number_checks (name : string) (definition : InputDefinition)
    (value : Z) : list ValidationError :=
  (match min definition with
   | Some lo =>
       if decide (value < lo)
       then [ {| path := "inputs." +:+ name;
                 message := "Value must be at least " +:+ pretty lo;
                 code := "MIN_VALUE" |} ]
       else []
   | None => []
   end) ++
  (match max definition with
   | Some hi =>
       if decide (hi < value)
       then [ {| path := "inputs." +:+ name;
                 message := "Value must be at most " +:+ pretty hi;
                 code := "MAX_VALUE" |} ]
       else []
   | None => []
   end).

(** One turn of the [for (const [name, definition] of ...)] loop, given
    what [inputs[name]] evaluated to: the errors it pushes. *)
Definition check_input (name : string) (definition : InputDefinition)
    (value : Read Value) : list ValidationError :=
  match value with
  | Undefined =>
      match required definition, default_value definition with
      | Some true, None => [missing_input name]
      | _, _ => []
      end
  | _ =>
      if decide (readType value ≠ typeName (input_type definition)) then
        [ {| path := "inputs." +:+ name;
             message := "Expected " +:+ typeName (input_type definition)
                        +:+ ", got " +:+ readType value;
             code := "TYPE_MISMATCH" |} ]
      else
        match value with
        | Own (VString s) => string_checks name definition s
        | Own (VNumber n _) => number_checks name definition n
        | _ => []
        end
  end.

Definition validateInputs (ability : Ability) (inputs : gmap string Value)
    : list ValidationError :=
  match Types.inputs ability with
  | None => []
  | Some definitions =>
      flat_map (λ '(name, definition),
                  check_input name definition (read (inputs !! name) name))
        definitions
  end.

End validator.
End Validator.
Import Validator.

(** ** Executor (executor/index.ts) *)

Module Executor.

Record RunOptions := {
  opt_cwd : option string;
  opt_env : option (gmap string string);
}.

Record ScriptOutput := {
  stdout : string;
  stderr : string;
  exitCode : Z;
}.

Section executor.
Context `{Host}.

(** [`exec_${Date.now()}_${Math.random().toString(36).slice(2, 8)}`]. *)
Definition generateExecutionId : M string :=
  now <- Date_now ;;
  suffix <- random_suffix ;;
  ret ("exec_" +:+ pretty now +:+ "_" +:+ suffix).

(** The promise of [runScript]: resolved by whichever of ['close'] and
    ['error'] comes first, rejected when [spawn] itself throws. *)
Definition runScript (command : string) (options : RunOptions)
    : M (Outcome ScriptOutput) :=
  λ w,
    let '(outcome, w') :=
      spawn command
        {| spawn_cwd := str_or (opt_cwd options) (process_cwd w);
           spawn_env := default ∅ (opt_env options) ∪ process_env w |} w in
    (match outcome with
     | SpawnThrows msg => Thrown msg
     | ProcClose out err exit =>
         Returned {| stdout := out; stderr := err; exitCode := default 1 exit |}
     | ProcError out msg =>
         Returned {| stdout := out; stderr := msg; exitCode := 1 |}
     end, w').

Definition executeScriptStep (step : Step) (execution : AbilityExecution)
    (ctx : ExecutorContext) : M StepResult :=
  started <- Date_now ;;
  let command := interpolateVariables (run step) (exec_inputs execution) in
  outcome <- runScript command
               {| opt_cwd := Some (str_or (cwd step) (ctx_cwd ctx));
                  opt_env := Some (default ∅ (env step) ∪ ctx_env ctx) |} ;;
  match outcome with
  | Returned result =>
      let '(has_failed, err) :=
        match validation step ≫= exit_code with
        | Some expected =>
            if decide (exitCode result ≠ expected)
            then (true, Some ("Exit code " +:+ pretty (exitCode result)
                              +:+ ", expected " +:+ pretty expected))
            else (false, None)
        | None => (false, None)
        end in
      finished <- Date_now ;;
      finished' <- Date_now ;;
      ret {| stepId := id step;
             status := if has_failed : bool then step_failed else step_completed;
             output := Some (str_or (Some (stdout result)) (stderr result));
             error := err;
             startedAt := started;
             completedAt := finished;
             duration := finished' - started |}
  | Thrown msg =>
      finished <- Date_now ;;
      finished' <- Date_now ;;
      ret {| stepId := id step;
             status := step_failed;
             output := None;
             error := Some msg;
             startedAt := started;
             completedAt := finished;
             duration := finished' - started |}
  end.

(** The "Apply defaults" loop over [Object.entries(ability.inputs)]. *)
Definition applyDefaults (ability : Ability) (inputs : gmap string Value)
    : gmap string Value :=
  match Types.inputs ability with
  | None => inputs
  | Some definitions =>
      foldl (λ resolved '(name, definition),
               match read (resolved !! name) name, default_value definition with
               | Undefined, Some d => <[name := d]> resolved
               | _, _ => resolved
               end)
        inputs definitions
  end.

(** The assignments at the head of a loop turn. *)
Definition enter_step (execution : AbilityExecution) (step : Step) (i : Z)
    : AbilityExecution :=
  {| exec_id := exec_id execution; ability := ability execution;
     exec_inputs := exec_inputs execution; exec_status := exec_status execution;
     currentStep := Some step; currentStepIndex := i;
     completedSteps := completedSteps execution;
     pendingSteps := pendingSteps execution;
     exec_startedAt := exec_startedAt execution;
     exec_completedAt := exec_completedAt execution;
     exec_error := exec_error execution |}.

(** [completedSteps.push(result)] and the [pendingSteps] filter. *)
Definition record_result (execution : AbilityExecution) (step : Step)
    (result : StepResult) : AbilityExecution :=
  {| exec_id := exec_id execution; ability := ability execution;
     exec_inputs := exec_inputs execution; exec_status := exec_status execution;
     currentStep := currentStep execution;
     currentStepIndex := currentStepIndex execution;
     completedSteps := completedSteps execution ++ [result];
     pendingSteps :=
       filter (λ s, id s ≠ id step) (pendingSteps execution);
     exec_startedAt := exec_startedAt execution;
     exec_completedAt := exec_completedAt execution;
     exec_error := exec_error execution |}.

(** The body of [if (result.status === 'failed')]. *)
Definition abort_execution (execution : AbilityExecution) (result : StepResult)
    (now : Z) : AbilityExecution :=
  {| exec_id := exec_id execution; ability := ability execution;
     exec_inputs := exec_inputs execution; exec_status := failed;
     currentStep := currentStep execution;
     currentStepIndex := currentStepIndex execution;
     completedSteps := completedSteps execution;
     pendingSteps := pendingSteps execution;
     exec_startedAt := exec_startedAt execution;
     exec_completedAt := Some now;
     exec_error := error result |}.

(** The assignments after the loop. *)
Definition complete_execution (execution : AbilityExecution) (now : Z)
    : AbilityExecution :=
  {| exec_id := exec_id execution; ability := ability execution;
     exec_inputs := exec_inputs execution; exec_status := completed;
     currentStep := None;
     currentStepIndex := currentStepIndex execution;
     completedSteps := completedSteps execution;
     pendingSteps := pendingSteps execution;
     exec_startedAt := exec_startedAt execution;
     exec_completedAt := Some now;
     exec_error := exec_error execution |}.

(** [for (let i = 0; i < orderedSteps.length; i++)]: the list argument is
    [orderedSteps] from index [i] on. *)
Fixpoint run_steps (ctx : ExecutorContext) (orderedSteps : list Step) (i : Z)
    (execution : AbilityExecution) : M AbilityExecution :=
  match orderedSteps with
  | [] =>
      now <- Date_now ;;
      ret (complete_execution execution now)
  | step :: later =>
      let execution := enter_step execution step i in
      result <- executeScriptStep step execution ctx ;;
      let execution := record_result execution step result in
      if decide (status result = step_failed) then
        now <- Date_now ;;
        ret (abort_execution execution result now)
      else run_steps ctx later (i + 1) execution
  end.

Definition executeAbility (ability : Ability) (inputs : gmap string Value)
    (ctx : ExecutorContext) : M AbilityExecution :=
  let inputErrors := validateInputs ability inputs in
  if decide (0 < length inputErrors)%nat then
    ident <- generateExecutionId ;;
    started <- Date_now ;;
    finished <- Date_now ;;
    ret {| exec_id := ident; ability := ability; exec_inputs := inputs;
           exec_status := failed; currentStep := None; currentStepIndex := -1;
           completedSteps := []; pendingSteps := steps ability;
           exec_startedAt := started; exec_completedAt := Some finished;
           exec_error :=
             Some ("Input validation failed: "
                   +:+ String.concat ", " (message <$> inputErrors)) |}
  else
    let resolvedInputs := applyDefaults ability inputs in
    let orderedSteps := buildExecutionOrder (steps ability) in
    ident <- generateExecutionId ;;
    started <- Date_now ;;
    run_steps ctx orderedSteps 0
      {| exec_id := ident; ability := ability; exec_inputs := resolvedInputs;
         exec_status := running; currentStep := None; currentStepIndex := -1;
         completedSteps := []; pendingSteps := orderedSteps;
         exec_startedAt := started; exec_completedAt := None;
         exec_error := None |}.

End executor.
End Executor.
Import Executor.

(** ** Execution manager (executor/execution-manager.ts) *)

Module Manager.

(** Executions are objects: the manager's slot, the caller of [execute] and
    the plugin hold references to the same one.  The store maps a reference
    to the object's current fields. *)
Record ExecutionManager := {
  activeExecution : option nat;
}.

Definition getActive (manager : ExecutionManager) : option nat :=
  activeExecution manager.

Definition cleanup (manager : ExecutionManager) : ExecutionManager :=
  {| activeExecution := None |}.

(** The three assignments of [cancel] to the active execution. *)
Definition mark_cancelled (execution : AbilityExecution) (now : Z)
    : AbilityExecution :=
  {| exec_id := exec_id execution; ability := ability execution;
     exec_inputs := exec_inputs execution; exec_status := failed;
     currentStep := currentStep execution;
     currentStepIndex := currentStepIndex execution;
     completedSteps := completedSteps execution;
     pendingSteps := pendingSteps execution;
     exec_startedAt := exec_startedAt execution;
     exec_completedAt := Some now;
     exec_error := Some "Cancelled by user" |}.

(** The guard of [execute]:
    [this.activeExecution && this.activeExecution.status === 'running'];
    the name is the one the error message quotes. *)
Definition running_ability (manager : ExecutionManager)
    (store : gmap nat AbilityExecution) : option string :=
  match activeExecution manager ≫= (store !!.) with
  | Some active =>
      if decide (exec_status active = running)
      then Some (name (Types.ability active)) else None
  | None => None
  end.

Section manager.
Context `{Host}.

(** [execute]: the result is the reference of the execution returned, or
    the error thrown; the manager and the store are returned updated.  The
    execution becomes reachable from the store when [executeAbility] hands
    it back. *)
Definition execute (manager : ExecutionManager) (store : gmap nat AbilityExecution)
    (ability : Ability) (inputs : gmap string Value) (ctx : ExecutorContext)
    : M (Outcome nat * ExecutionManager * gmap nat AbilityExecution) :=
  match running_ability manager store with
  | Some busy =>
      ret (Thrown ("Already executing ability: " +:+ busy), manager, store)
  | None =>
      execution <- executeAbility ability inputs ctx ;;
      let ref := fresh (dom store) in
      ret (Returned ref,
           if decide (exec_status execution ≠ running)
           then {| activeExecution := None |}
           else {| activeExecution := Some ref |},
           <[ref := execution]> store)
  end.

Definition cancel (manager : ExecutionManager) (store : gmap nat AbilityExecution)
    : M (bool * ExecutionManager * gmap nat AbilityExecution) :=
  match activeExecution manager with
  | None => ret (false, manager, store)
  | Some ref =>
      match store !! ref with
      | Some active =>
          if decide (exec_status active = running) then
            now <- Date_now ;;
            ret (true, {| activeExecution := None |},
                 <[ref := mark_cancelled active now]> store)
          else ret (false, manager, store)
      | None => ret (false, manager, store)
      end
  end.

End manager.
End Manager.
Import Manager.

(** ** Enforcement gate (plugin.ts, handleToolExecuteBefore) *)

Module Plugin.

Inductive Enforcement := strict | normal | loose.

#[global] Instance Enforcement_eq_dec : EqDecision Enforcement.
Proof. solve_decision. Defined.

(** The fields of [AbilitiesPlugin] the gate reads:
    [this.executionManager] and [this.config.abilities?.enforcement]. *)
Record AbilitiesPlugin := {
  executionManager : ExecutionManager;
  config_enforcement : option Enforcement;
}.

Definition ALLOWED_TOOLS_BY_STEP_TYPE : list (string * list string) :=
  [ ("script", []);
    ("agent", ["task"; "background_task"; "call_omo_agent"]);
    ("skill", ["skill"; "slashcommand"]);
    ("approval", ["ability.status"; "ability.cancel"]);
    ("workflow", ["ability.run"; "ability.status"]) ].

Definition ALWAYS_ALLOWED_TOOLS : list string :=
  [ "ability.list"; "ability.status"; "ability.cancel"; "todoread"; "read";
    "glob"; "grep"; "lsp_hover"; "lsp_diagnostics"; "lsp_document_symbols" ].

(** The own property [key] of an object literal with the keys listed. *)
Fixpoint lookup_key {A} (key : string) (table : list (string * A)) : option A :=
  match table with
  | [] => None
  | (k, v) :: table' => if decide (k = key) then Some v else lookup_key key table'
  end.

Definition getStepTypeBlockMessage (step : Step) : string :=
  let t := step_type step in
  if decide (t = "script") then
    "Script steps run deterministically - wait for completion."
  else if decide (t = "agent") then
    "Only agent invocation tools (task, background_task) allowed."
  else if decide (t = "approval") then
    "Waiting for user approval - only status/cancel tools allowed."
  else if decide (t = "skill") then "Only skill-loading tools allowed."
  else if decide (t = "workflow") then "Only ability execution tools allowed."
  else "Wait for step completion.".

Definition destructiveTools : list string := ["write"; "edit"; "bash"; "task"].

(** [ALLOWED_TOOLS_BY_STEP_TYPE[type] || []]: an array of the table, or
    what the key inherits from [Object.prototype], which is truthy and is
    kept; [Undefined] stands for the empty array put in its place. *)
Definition allowedTools_for (type : string) : Read (list string) :=
  read (lookup_key type ALLOWED_TOOLS_BY_STEP_TYPE) type.

(** [allowedTools.includes(tool)].  A member of [Object.prototype] has no
    [includes]: the call throws a [TypeError], with the message V8 gives
    it. *)
Definition includes (allowedTools : Read (list string)) (tool : string)
    : Outcome bool :=
  match allowedTools with
  | Own tools => Returned (bool_decide (tool ∈ tools))
  | Undefined => Returned false
  | Inherited _ => Thrown "allowedTools.includes is not a function"
  end.

Definition handleToolExecuteBefore (plugin : AbilitiesPlugin)
    (store : gmap nat AbilityExecution) (tool : string) : Outcome unit :=
  match getActive (executionManager plugin) ≫= (store !!.) with
  | None => Returned ()
  | Some execution =>
      match currentStep execution with
      | None => Returned ()
      | Some step =>
          let enforcement := default strict (config_enforcement plugin) in
          if decide (enforcement = loose) then Returned ()
          else if bool_decide (tool ∈ ALWAYS_ALLOWED_TOOLS) then Returned ()
          else
            let allowedTools := allowedTools_for (step_type step) in
            match enforcement with
            | strict =>
                match includes allowedTools tool with
                | Thrown msg => Thrown msg
                | Returned true => Returned ()
                | Returned false =>
                    Thrown ("[abilities] Tool '" +:+ tool +:+ "' blocked during "
                            +:+ step_type step +:+ " step '" +:+ id step +:+ "'. "
                            +:+ getStepTypeBlockMessage step)
                end
            | normal =>
                if bool_decide (tool ∈ destructiveTools) then
                  match includes allowedTools tool with
                  | Thrown msg => Thrown msg
                  | Returned true => Returned ()
                  | Returned false =>
                      Thrown ("[abilities] Destructive tool '" +:+ tool
                              +:+ "' blocked during " +:+ step_type step
                              +:+ " step '" +:+ id step +:+ "'.")
                  end
                else Returned ()
            | loose => Returned ()
            end
      end
  end.

End Plugin.
Import Plugin.

(** ** What the specification says of the resolver *)

Module ResolverSpec.

(** The step ids a step lists under [needs] (none when the field is absent). *)
Definition needs_of (s : Step) : list string := default [] (needs s).

(** Every [needs] reference names an existing step. *)
Definition references_exist (steps : list Step) : Prop :=
  ∀ s d, s ∈ steps → d ∈ needs_of s → d ∈ id <$> steps.

(** An edge of the [needs] graph: the step named [a] lists [b]. *)
Definition depends (steps : list Step) (a b : string) : Prop :=
  ∃ s, s ∈ steps ∧ id s = a ∧ b ∈ needs_of s.

(** No step reaches itself through one or more edges. *)
Definition acyclic (steps : list Step) : Prop :=
  ∀ a, ¬ tc (depends steps) a a.

(** Every step of [order] comes strictly after a step of each id it needs. *)
Definition after_needs (order : list Step) : Prop :=
  ∀ i s d, order !! i = Some s → d ∈ needs_of s →
    ∃ j t, (j < i)%nat ∧ order !! j = Some t ∧ id t = d.

(** "Every dependency has already been placed". *)
Definition dependencies_placed (placed : list Step) (s : Step) : Prop :=
  ∀ d, d ∈ needs_of s → d ∈ id <$> placed.

(** The rounds of the specification's algorithm: from the remaining steps,
    kept in declaration order, select the first whose every dependency has
    been placed, append it and remove it; stop when none remain. *)
Inductive selection : list Step → list Step → list Step → Prop :=
  | selection_done placed :
      selection placed [] placed
  | selection_round placed remaining i next order :
      remaining !! i = Some next →
      dependencies_placed placed next →
      (∀ j s, (j < i)%nat → remaining !! j = Some s → ¬ dependencies_placed placed s) →
      selection (placed ++ [next]) (delete i remaining) order →
      selection placed remaining order.

(** [s] stands before [t] in [l]. *)
Definition before (l : list Step) (s t : Step) : Prop :=
  ∃ i j, (i < j)%nat ∧ l !! i = Some s ∧ l !! j = Some t.

(** Neither step reaches the other through [needs]. *)
Definition independent (steps : list Step) (s t : Step) : Prop :=
  ¬ tc (depends steps) (id s) (id t) ∧ ¬ tc (depends steps) (id t) (id s).

(** Consecutive elements of a list are related. *)
Fixpoint chain (R : relation string) (l : list string) : Prop :=
  match l with
  | a :: l' => match l' with b :: _ => R a b | [] => True end ∧ chain R l'
  | [] => True
  end.

(** What holds of the loop of [buildExecutionOrder] at the head of every
    round, for the step list [steps] it was called on. *)
Record loop_inv (steps result : list Step) (done : gset string)
    (remaining : list Step) : Prop := {
  inv_perm : result ++ remaining ≡ₚ steps;
  inv_done : ∀ d, d ∈ done ↔ d ∈ id <$> result;
  inv_after : after_needs result;
}.

End ResolverSpec.
Import ResolverSpec.

(** ** Hosts with a record of the commands spawned *)

Module Hosts.

(** The host [H] with the commands handed to [spawn] recorded, in order, in
    a second component of the world. *)
Definition logging (H : Host) : Host :=
  {| World := @World H * list string;
     Date_now := λ w, let '(t, w') := @Date_now H w.1 in (t, (w', w.2));
     random_suffix := λ w, let '(r, w') := @random_suffix H w.1 in (r, (w', w.2));
     spawn := λ command options w,
       let '(o, w') := @spawn H command options w.1 in (o, (w', w.2 ++ [command]));
     process_cwd := λ w, @process_cwd H w.1;
     process_env := λ w, @process_env H w.1;
     regexp_test := @regexp_test H |}.

(** The commands handed to [spawn], in order, while
    [executeAbility ability inputs ctx] runs from the world [w]. *)
Definition commands_spawned (H : Host) (ability : Ability)
    (inputs : gmap string Value) (ctx : ExecutorContext) (w : @World H)
    : list string :=
  (@executeAbility (logging H) ability inputs ctx (w, [])).2.2.

Definition newline : string := String (ascii_of_nat 10) EmptyString.

(** Drops the double quotes of a command line. *)
Fixpoint unquote (s : string) : string :=
  match s with
  | EmptyString => EmptyString
  | String c s' =>
      if decide (c = ascii_of_nat 34) then unquote s' else String c (unquote s')
  end.

(** A small shell: [exit 1] exits with code 1; [echo text] prints the text
    without its quotes and a newline; a command starting with [!] cannot be
    started; every other command succeeds silently. *)
Definition sh (command : string) : SpawnOutcome :=
  if decide (command = "exit 1") then ProcClose "" "" (Some 1)
  else match strip_prefix "echo " command with
       | Some text => ProcClose (unquote text +:+ newline) "" (Some 0)
       | None =>
           match command with
           | String "!" _ => ProcError "" "spawn sh ENOENT"
           | _ => ProcClose "" "" (Some 0)
           end
       end.

(** A host whose world is a clock, with that shell. *)
Definition clock_host : Host :=
  {| World := Z;
     Date_now := λ t, (t, t + 1);
     random_suffix := λ t, ("k3x9qa", t);
     spawn := λ command _ t, (sh command, t + 5);
     process_cwd := λ _, "/";
     process_env := λ _, ∅;
     regexp_test := λ _ _, true |}.

End Hosts.
Import Hosts.

(** ** The scenarios of the specification *)

Module Scenarios.

Definition script (i : string) (command : string) (deps : option (list string))
    (expect : option Z) (policy : option string) : Step :=
  {| id := i; step_type := "script"; run := command; cwd := None; env := None;
     needs := deps;
     validation := match expect with
                   | Some c => Some {| exit_code := Some c |}
                   | None => None
                   end;
     on_failure := policy |}.

Definition the_ctx : ExecutorContext := {| ctx_cwd := "/"; ctx_env := ∅ |}.

(** Scenario A: [a], [b] needs [a], [c] needs [b]; [a] exits 1 against an
    expected exit code 0. *)
Definition scenario_A : Ability :=
  {| name := "scenario-a"; description := "stop on failure"; inputs := None;
     steps := [ script "a" "exit 1" None (Some 0) None;
                script "b" "echo b" (Some ["a"]) None None;
                script "c" "echo c" (Some ["b"]) None None ] |}.

Definition dquote : string := String (ascii_of_nat 34) EmptyString.

Definition required_string : InputDefinition :=
  {| input_type := TString; required := Some true; default_value := None;
     pattern := None; enum := None; minLength := None; maxLength := None;
     min := None; max := None |}.

(** Scenarios C and D: a required input [name] and one greeting step. *)
Definition scenario_C : Ability :=
  {| name := "interpolate"; description := "Interpolation test";
     inputs := Some [("name", required_string)];
     steps := [ script "greet"
                  ("echo " +:+ dquote +:+ "Hello {{inputs.name}}" +:+ dquote)
                  None None None ] |}.

(** A required input named after a member of [Object.prototype]: the
    prototype itself, declared an object, and one of its functions. *)
Definition required_object : InputDefinition :=
  {| input_type := TObject; required := Some true; default_value := None;
     pattern := None; enum := None; minLength := None; maxLength := None;
     min := None; max := None |}.

Definition proto_input : Ability :=
  {| name := "proto-input"; description := "Required input __proto__";
     inputs := Some [("__proto__", required_object)];
     steps := [ script "greet" "echo hi" None None None ] |}.

Definition constructor_input : Ability :=
  {| name := "constructor-input"; description := "Required input constructor";
     inputs := Some [("constructor", required_string)];
     steps := [ script "greet" "echo hi {{inputs.constructor}}" None None None ] |}.

(** Scenario E: [fail] declares [on_failure: continue] and exits 1 against
    an expected 0; the independent step [after] follows. *)
Definition scenario_E : Ability :=
  {| name := "continue"; description := "Continue test"; inputs := None;
     steps := [ script "fail" "exit 1" None (Some 0) (Some "continue");
                script "after" "echo after" None None None ] |}.

(** Three steps in declaration order [x] (needs [c]), [b], [c]. *)
Definition step_x : Step := script "x" "echo x" (Some ["c"]) None None.
Definition step_b : Step := script "b" "echo b" None None None.
Definition step_c : Step := script "c" "echo c" None None None.
Definition greedy_steps : list Step := [step_x; step_b; step_c].

(** The steps of the executor's ordering test. *)
Definition ordered_test_steps : list Step :=
  [ script "third" "echo third" (Some ["second"]) None None;
    script "first" "echo first" None None None;
    script "second" "echo second" (Some ["first"]) None None ].


(** A step whose command cannot be started, with and without a declared
    exit code. *)
Definition unstartable : Step := script "deploy" "!deploy" None None None.
Definition unstartable_checked : Step :=
  script "deploy" "!deploy" None (Some 0) None.

(** An execution of scenario A observed while its first step runs, held by
    a manager under reference 0, and a plugin with the default
    configuration. *)
Definition mid_run : AbilityExecution :=
  {| exec_id := "exec_100_k3x9qa"; ability := scenario_A; exec_inputs := ∅;
     exec_status := running;
     currentStep := Some (script "a" "exit 1" None (Some 0) None);
     currentStepIndex := 0; completedSteps := [];
     pendingSteps := steps scenario_A;
     exec_startedAt := 101; exec_completedAt := None; exec_error := None |}.

Definition busy_manager : ExecutionManager := {| activeExecution := Some 0%nat |}.
Definition busy_store : gmap nat AbilityExecution := {[ 0%nat := mid_run ]}.
Definition idle_manager : ExecutionManager := {| activeExecution := None |}.

Definition default_plugin : AbilitiesPlugin :=
  {| executionManager := busy_manager; config_enforcement := None |}.

End Scenarios.
Import Scenarios.

(** ** Vocabulary for the statements on the executor *)

Module ExecutorSpec.

(** Every character of [s] is a word character. *)
Fixpoint word (s : string) : bool :=
  match s with
  | EmptyString => true
  | String c s' => is_word_char c && word s'
  end.


(** A text that is empty or starts with a character outside [\w]. *)
Definition stops (u : string) : Prop :=
  match u with
  | String c _ => is_word_char c = false
  | EmptyString => True
  end.

(** An execution that has ended. *)
Definition terminal (e : AbilityExecution) : Prop :=
  (exec_status e = completed ∨ exec_status e = failed)
  ∧ exec_status e ≠ running
  ∧ is_Some (exec_completedAt e).

(** The command line a step is run with, for the resolved inputs. *)
Definition command_of (resolved : gmap string Value) (step : Step) : string :=
  interpolateVariables (run step) resolved.

(** The world in which the step loop of [executeAbility] starts: the
    execution id has been generated and the start time read. *)
Definition loop_start `{Host} (w : World) : World :=
  (Date_now (generateExecutionId w).2).2.

(** What [executeScriptStep] returns for the steps of [ordered] called one
    after the other, each in the world the one before left, whatever the
    results; [execution] supplies the inputs. *)
Fixpoint results_in_turn `{Host} (ctx : ExecutorContext)
    (execution : AbilityExecution) (ordered : list Step) (w : World)
    : list StepResult :=
  match ordered with
  | [] => []
  | step :: later =>
      let '(result, w') := executeScriptStep step execution ctx w in
      result :: results_in_turn ctx execution later w'
  end.

(** The results recorded by a loop that stops at the first failed one:
    the results up to and including it. *)
Fixpoint until_failed (results : list StepResult) : list StepResult :=
  match results with
  | [] => []
  | r :: rest =>
      if decide (status r = step_failed) then [r] else r :: until_failed rest
  end.

(** The names captured by the matches of [/\{\{inputs\.(\w+)\}\}/g] in
    [s], from the left, [skip] characters of a match still to pass over. *)
Fixpoint placeholders (skip : nat) (s : string) : list string :=
  match s with
  | EmptyString => []
  | String c s' =>
      match skip with
      | S k => placeholders k s'
      | O =>
          match match_placeholder s with
          | Some name => name :: placeholders (10 + String.length name) s'
          | None => placeholders 0 s'
          end
      end
  end.

(** One turn of the loop of [applyDefaults]. *)
Definition fill (resolved : gmap string Value) (entry : string * InputDefinition)
    : gmap string Value :=
  let '(name, definition) := entry in
  match read (resolved !! name) name, default_value definition with
  | Undefined, Some d => <[name := d]> resolved
  | _, _ => resolved
  end.

(** The options [spawn] receives for a step. *)
Definition options_of `{Host} (step : Step) (ctx : ExecutorContext) (w : World)
    : SpawnOptions :=
  {| spawn_cwd := str_or (Some (str_or (cwd step) (ctx_cwd ctx))) (process_cwd w);
     spawn_env := (default ∅ (env step) ∪ ctx_env ctx) ∪ process_env w |}.

End ExecutorSpec.
Import ExecutorSpec.

(** ** Structural validation (validator/index.ts) *)

Module Structure.

(** [validateUniqueIds]: the loop over the steps with the set [seen]. *)
Fixpoint unique_loop (seen : gset string) (steps : list Step)
    : list ValidationError :=
  match steps with
  | [] => []
  | step :: later =>
      (if bool_decide (id step ∈ seen)
       then [ {| path := "steps." +:+ id step;
                 message := "Duplicate step ID '" +:+ id step +:+ "'";
                 code := "DUPLICATE_ID" |} ]
       else [])
      ++ unique_loop ({[id step]} ∪ seen) later
  end.

Definition validateUniqueIds (steps : list Step) : list ValidationError :=
  unique_loop ∅ steps.

(** The state the traversal of [detectCircularDependencies] shares:
    [visited], [recursionStack] and [path]. *)
Record DfsState := {
  visited : gset string;
  recursionStack : gset string;
  dfs_path : list string;
}.

(** What a call of [dfs] hands back: the cycle, [null], or nothing when the
    call depth allowed to the traversal is used up. *)
Inductive DfsAnswer :=
  | Cycle (cycle : list string)
  | NoCycle
  | Exhausted.

(** [path.indexOf(x)]. *)
Definition indexOf (x : string) (l : list string) : Z :=
  match list_find (λ y, y = x) l with
  | Some (i, _) => Z.of_nat i
  | None => -1
  end.

(** [path.slice(start)]: a negative start counts from the end. *)
Definition slice_from (start : Z) (l : list string) : list string :=
  if decide (start < 0)
  then drop (Z.to_nat (Z.max (Z.of_nat (length l) + start) 0)) l
  else drop (Z.to_nat start) l.

(** The [needs] the traversal follows from an id: those of
    [steps.find(s => s.id === stepId)], none when no step has the id or the
    step has no [needs]. *)
Definition needs_of_id (steps : list Step) (stepId : string) : list string :=
  match list_find (λ s, id s = stepId) steps with
  | Some (_, step) => default [] (needs step)
  | None => []
  end.

(** [for (const dep of step.needs) { const cycle = dfs(dep); if (cycle) return cycle }]. *)
Fixpoint visit_deps (call : string → DfsState → DfsAnswer * DfsState)
    (deps : list string) (st : DfsState) : DfsAnswer * DfsState :=
  match deps with
  | [] => (NoCycle, st)
  | dep :: deps' =>
      match call dep st with
      | (NoCycle, st') => visit_deps call deps' st'
      | found => found
      end
  end.

(** The inner function [dfs]; [depth] bounds the nesting of calls. *)
Fixpoint dfs (steps : list Step) (depth : nat) (stepId : string) (st : DfsState)
    : DfsAnswer * DfsState :=
  match depth with
  | O => (Exhausted, st)
  | S depth' =>
      if bool_decide (stepId ∈ recursionStack st) then
        (Cycle (slice_from (indexOf stepId (dfs_path st)) (dfs_path st) ++ [stepId]),
         st)
      else if bool_decide (stepId ∈ visited st) then (NoCycle, st)
      else
        match visit_deps (dfs steps depth') (needs_of_id steps stepId)
                {| visited := {[stepId]} ∪ visited st;
                   recursionStack := {[stepId]} ∪ recursionStack st;
                   dfs_path := dfs_path st ++ [stepId] |} with
        | (NoCycle, st') =>
            (NoCycle,
             {| visited := visited st';
                recursionStack := recursionStack st' ∖ {[stepId]};
                dfs_path := removelast (dfs_path st') |})
        | found => found
        end
  end.

(** [for (const step of steps) { const cycle = dfs(step.id); if (cycle) return cycle }]. *)
Fixpoint detect_loop (call : string → DfsState → DfsAnswer * DfsState)
    (todo : list Step) (st : DfsState) : DfsAnswer :=
  match todo with
  | [] => NoCycle
  | step :: later =>
      match call (id step) st with
      | (NoCycle, st') => detect_loop call later st'
      | (found, _) => found
      end
  end.

(** Every id the steps mention, as an id or under [needs]. *)
Definition mentioned (steps : list Step) : gset string :=
  list_to_set (id <$> steps) ∪ list_to_set (steps ≫= λ s, default [] (needs s)).

(** Nested calls of [dfs] are on distinct ids not visited before, so their
    depth stays within the number of ids mentioned, plus the call that
    returns at once. *)
Definition detect_answer (steps : list Step) : DfsAnswer :=
  detect_loop (dfs steps (S (size (mentioned steps)))) steps
    {| visited := ∅; recursionStack := ∅; dfs_path := [] |}.

Definition detectCircularDependencies (steps : list Step) : option (list string) :=
  match detect_answer steps with
  | Cycle cycle => Some cycle
  | _ => None
  end.

(** The [MISSING_DEPENDENCY] errors of one step. *)
Definition missing_dependencies (stepIds : gset string) (step : Step)
    : list ValidationError :=
  match needs step with
  | None => []
  | Some deps =>
      deps ≫= λ dep,
        if bool_decide (dep ∈ stepIds) then []
        else [ {| path := "steps." +:+ id step +:+ ".needs";
                  message := "Dependency '" +:+ dep +:+ "' does not exist";
                  code := "MISSING_DEPENDENCY" |} ]
  end.

Definition validateDependencies (steps : list Step) : list ValidationError :=
  let stepIds : gset string := list_to_set (id <$> steps) in
  (steps ≫= missing_dependencies stepIds)
  ++ match detectCircularDependencies steps with
     | Some cycle =>
         [ {| path := "steps";
              message := "Circular dependency detected: "
                         +:+ String.concat " â†’ " cycle;
              code := "CIRCULAR_DEPENDENCY" |} ]
     | None => []
     end.

(** An edge the traversal follows. *)
Definition follows (steps : list Step) (a d : string) : Prop :=
  d ∈ needs_of_id steps a.

(** What holds of the traversal's state between two steps of it, with the
    ids finished so far listed in the order they were finished. *)
Record dfs_inv (steps : list Step) (st : DfsState) (fin : list string) : Prop := {
  stack_is_path : ∀ x, x ∈ recursionStack st ↔ x ∈ dfs_path st;
  path_nodup : NoDup (dfs_path st);
  path_chain : chain (follows steps) (dfs_path st);
  path_visited : ∀ x, x ∈ dfs_path st → x ∈ visited st;
  fin_finished : ∀ x, x ∈ fin ↔ x ∈ visited st ∧ x ∉ recursionStack st;
  fin_closed : ∀ i b d, fin !! i = Some b → follows steps b d →
                 ∃ j, (j < i)%nat ∧ fin !! j = Some d;
  visited_mentioned : ∀ x, x ∈ visited st → x ∈ mentioned steps;
}.

(** A closed walk: it ends where it starts and every step of it is an
    edge. *)
Definition closed_walk (R : relation string) (cycle : list string) : Prop :=
  ∃ x l, cycle = x :: l ++ [x] ∧ chain R cycle.

(** The call [dfs(stepId)] is made from the last id of the path, if any. *)
Definition enters (steps : list Step) (path : list string) (stepId : string)
    : Prop :=
  match last path with
  | Some a => follows steps a stepId
  | None => True
  end.

(** What a call made in state [st], with [fin] finished, hands back: a
    closed walk; or a state with the same path in which the [targets] are
    finished; never exhaustion. *)
Definition dfs_post (steps : list Step) (st : DfsState) (fin targets : list string)
    (r : DfsAnswer * DfsState) : Prop :=
  match r.1 with
  | Cycle cycle => closed_walk (follows steps) cycle
  | NoCycle =>
      ∃ fin', dfs_inv steps r.2 fin'
              ∧ dfs_path r.2 = dfs_path st
              ∧ visited st ⊆ visited r.2
              ∧ (∀ x, x ∈ fin → x ∈ fin')
              ∧ (∀ x, x ∈ targets → x ∈ fin')
  | Exhausted => False
  end.

End Structure.
Import Structure.

(** * Properties *)

(** ** The resolver *)

Section resolver_facts.

Lemma ready_spec (done : gset string) (s : Step) :
  Is_true (ready done s) ↔ ∀ d, d ∈ needs_of s → d ∈ done.
Proof.
  unfold ready, needs_of. destruct (needs s) as [deps|]; simpl.
  - destruct (decide (length deps = 0%nat)) as [Hz|Hz].
    + destruct deps; [|discriminate]. split; [intros _ d Hd|done].
      by apply elem_of_nil in Hd.
    + rewrite forallb_True, Forall_forall.
      split; intros Hall d Hd; specialize (Hall d Hd).
      * by apply bool_decide_unpack in Hall.
      * by apply bool_decide_pack.
  - split; [intros _ d Hd|done]. by apply elem_of_nil in Hd.
Qed.

Lemma chain_app_r R l1 l2 : chain R (l1 ++ l2) → chain R l2.
Proof. induction l1 as [|a l1 IH]; simpl; [done|]. intros [_ Hc]. auto. Qed.

Lemma chain_app_l R l1 l2 : chain R (l1 ++ l2) → chain R l1.
Proof.
  induction l1 as [|a l1 IH]; simpl; [done|].
  intros [HR Hc]. split; [|auto]. by destruct l1.
Qed.

Lemma chain_tc R l x y : chain R (x :: l ++ [y]) → tc R x y.
Proof.
  revert x. induction l as [|a l IH]; intros x; simpl.
  - intros [HR _]. by apply tc_once.
  - intros [HR Hc]. eapply tc_l; [exact HR|]. by apply IH.
Qed.

Lemma chain_extend R (ids : list string) :
  (∀ a, a ∈ ids → ∃ b, b ∈ ids ∧ R a b) →
  ∀ n a, a ∈ ids →
    ∃ l, length l = n ∧ Forall (λ b, b ∈ ids) l ∧ chain R (a :: l).
Proof.
  intros Hnext n. induction n as [|n IH]; intros a Ha.
  - exists []. by repeat split.
  - destruct (Hnext a Ha) as (b & Hb & Hab).
    destruct (IH b Hb) as (l & Hlen & Hall & Hc).
    exists (b :: l). split; [by simpl; rewrite Hlen|].
    split; [by constructor|]. simpl. simpl in Hc. done.
Qed.

Lemma repeated_element (l : list string) :
  ¬ NoDup l → ∃ x l1 l2 l3, l = l1 ++ x :: l2 ++ x :: l3.
Proof.
  induction l as [|a l IH]; intros Hnd.
  - destruct Hnd. constructor.
  - destruct (decide (a ∈ l)) as [Hin|Hnin].
    + apply list_elem_of_split in Hin as (l2 & l3 & ->).
      by exists a, [], l2, l3.
    + destruct IH as (x & l1 & l2 & l3 & ->).
      { intros Hl. apply Hnd. by constructor. }
      by exists x, (a :: l1), l2, l3.
Qed.

(** A finite set of ids in which every id has a successor holds a cycle. *)
Lemma successor_closed_cycle R (ids : list string) :
  ids ≠ [] →
  (∀ a, a ∈ ids → ∃ b, b ∈ ids ∧ R a b) →
  ∃ x, tc R x x.
Proof.
  intros Hne Hnext. destruct ids as [|a0 ids0] eqn:E; [done|]. rewrite <- E in *.
  assert (Ha0 : a0 ∈ ids) by (rewrite E; left).
  destruct (chain_extend R ids Hnext (length ids) a0 Ha0) as (l & Hlen & Hall & Hc).
  assert (Hdup : ¬ NoDup (a0 :: l)).
  { intros Hnd.
    assert (Hsub : a0 :: l ⊆+ ids).
    { apply NoDup_submseteq; [done|]. intros x Hx.
      apply elem_of_cons in Hx as [->|Hx]; [done|].
      by eapply Forall_forall in Hall. }
    apply submseteq_length in Hsub. simpl in Hsub. lia. }
  apply repeated_element in Hdup as (x & l1 & l2 & l3 & Heq).
  exists x. rewrite Heq in Hc. apply chain_app_r in Hc.
  apply (chain_tc R l2), (chain_app_l R _ l3).
  change (chain R (x :: (l2 ++ [x]) ++ l3)). by rewrite <- app_assoc.
Qed.

End resolver_facts.

Section order_loop_facts.
Context (steps : list Step).

Lemma ready_placed result done remaining s :
  loop_inv steps result done remaining →
  Is_true (ready done s) ↔ dependencies_placed result s.
Proof.
  intros Hinv. rewrite ready_spec. unfold dependencies_placed.
  split; intros Hall d Hd; apply (inv_done _ _ _ _ Hinv); auto.
Qed.

(** While steps remain, one of them is ready. *)
Lemma loop_progress result done remaining :
  references_exist steps → acyclic steps →
  loop_inv steps result done remaining → remaining ≠ [] →
  is_Some (list_find (λ s, Is_true (ready done s)) remaining).
Proof.
  intros Hrefs Hacyc Hinv Hne.
  destruct (list_find _ remaining) as [found|] eqn:Hfind; [by eexists|].
  exfalso. apply list_find_None in Hfind. rewrite Forall_forall in Hfind.
  destruct (successor_closed_cycle (depends steps) (id <$> remaining)) as [x Hx].
  - by destruct remaining.
  - intros a Ha. apply list_elem_of_fmap in Ha as (s & -> & Hs).
    assert (Hsteps : s ∈ steps).
    { rewrite <- (inv_perm _ _ _ _ Hinv). apply elem_of_app. by right. }
    assert (Hex : ∃ d, d ∈ needs_of s ∧ d ∉ done).
    { destruct (decide (Exists (λ d, d ∉ done) (needs_of s))) as [Hex|Hnex].
      - apply Exists_exists in Hex. done.
      - exfalso. apply (Hfind s Hs), ready_spec. intros d Hd.
        destruct (decide (d ∈ done)); [done|].
        exfalso. apply Hnex, Exists_exists. eauto. }
    destruct Hex as (d & Hd & Hnd). exists d. split.
    + pose proof (Hrefs s d Hsteps Hd) as Hexists.
      rewrite <- (inv_perm _ _ _ _ Hinv), fmap_app in Hexists.
      apply elem_of_app in Hexists as [Hres|Hrem]; [|done].
      exfalso. by apply Hnd, (inv_done _ _ _ _ Hinv).
    + by exists s.
  - by apply (Hacyc x).
Qed.

Lemma loop_preserve result done remaining i next :
  loop_inv steps result done remaining →
  list_find (λ s, Is_true (ready done s)) remaining = Some (i, next) →
  loop_inv steps (result ++ [next]) ({[id next]} ∪ done) (delete i remaining).
Proof.
  intros Hinv Hfind. apply list_find_Some in Hfind as (Hi & Hready & _).
  split.
  - rewrite <- (inv_perm _ _ _ _ Hinv), <- app_assoc. simpl.
    by rewrite <- (delete_Permutation remaining i next).
  - intros d. rewrite fmap_app, elem_of_app, elem_of_union, elem_of_singleton.
    rewrite (inv_done _ _ _ _ Hinv). simpl. rewrite list_elem_of_singleton.
    tauto.
  - intros k s d Hk Hd.
    destruct (decide (k < length result)%nat) as [Hlt|Hge].
    + rewrite lookup_app_l in Hk by done.
      destruct (inv_after _ _ _ _ Hinv k s d Hk Hd) as (j & t & Hj & Ht & Hid).
      exists j, t. split; [done|]. split; [|done].
      rewrite lookup_app_l; [done|lia].
    + rewrite lookup_app_r in Hk by lia.
      apply list_lookup_singleton_Some in Hk as [Hk0 <-].
      pose proof (proj1 (ready_spec _ _) Hready d Hd) as Hdone.
      apply (inv_done _ _ _ _ Hinv), list_elem_of_fmap in Hdone as (t & -> & Ht).
      apply list_elem_of_lookup in Ht as [j Hj].
      exists j, t. pose proof (lookup_lt_Some _ _ _ Hj).
      split; [lia|]. split; [|done]. by rewrite lookup_app_l.
Qed.

Lemma order_loop_correct rounds result done remaining :
  references_exist steps → acyclic steps →
  (length remaining ≤ rounds)%nat →
  loop_inv steps result done remaining →
  order_loop rounds result done remaining ≡ₚ steps
  ∧ after_needs (order_loop rounds result done remaining)
  ∧ selection result remaining (order_loop rounds result done remaining).
Proof.
  intros Hrefs Hacyc. revert result done remaining.
  induction rounds as [|rounds IH]; intros result done remaining Hlen Hinv.
  - destruct remaining; [|simpl in Hlen; lia]. simpl.
    pose proof (inv_perm _ _ _ _ Hinv) as Hp. rewrite app_nil_r in Hp.
    repeat split; [done|by apply (inv_after _ _ _ _ Hinv)|constructor].
  - simpl. destruct (decide (length remaining = 0%nat)) as [Hz|Hnz].
    + destruct remaining; [|discriminate].
      pose proof (inv_perm _ _ _ _ Hinv) as Hp. rewrite app_nil_r in Hp.
      repeat split; [done|by apply (inv_after _ _ _ _ Hinv)|constructor].
    + destruct (loop_progress result done remaining Hrefs Hacyc Hinv)
        as [[i next] Hfind]; [by destruct remaining|].
      rewrite Hfind.
      pose proof (loop_preserve _ _ _ _ _ Hinv Hfind) as Hinv'.
      apply list_find_Some in Hfind as (Hi & Hready & Hfirst).
      destruct (IH (result ++ [next]) ({[id next]} ∪ done) (delete i remaining))
        as (Hp & Ha & Hs); [|done|].
      { rewrite length_delete by (by eexists). lia. }
      repeat split; [done|done|].
      eapply selection_round; [exact Hi| | |exact Hs].
      * by apply (ready_placed _ _ _ _ Hinv).
      * intros j s Hj Hs' Hplaced. apply (Hfirst j s Hs' Hj).
        by apply (ready_placed _ _ _ _ Hinv).
Qed.

End order_loop_facts.

Lemma buildExecutionOrder_topological_aux (steps : list Step) :
  references_exist steps → acyclic steps →
  buildExecutionOrder steps ≡ₚ steps
  ∧ after_needs (buildExecutionOrder steps)
  ∧ selection [] steps (buildExecutionOrder steps).
Proof.
  intros Hrefs Hacyc. apply order_loop_correct; [done|done|done|].
  split; [done| |].
  - intros d. rewrite elem_of_empty. simpl. by rewrite elem_of_nil.
  - intros i s d Hi. by rewrite lookup_nil in Hi.
Qed.

Lemma NoDup_fmap_eq {A B} (f : A → B) (l : list A) x y :
  NoDup (f <$> l) → x ∈ l → y ∈ l → f x = f y → x = y.
Proof.
  intros Hnd Hx Hy Hf.
  apply list_elem_of_lookup in Hx as [a Ha], Hy as [b Hb].
  assert (a = b) as ->.
  { apply (NoDup_lookup (f <$> l) a b (f x)); [done| |].
    - by rewrite list_lookup_fmap, Ha.
    - by rewrite list_lookup_fmap, Hb, Hf. }
  congruence.
Qed.

(** C1. For a step list whose [needs] graph is acyclic and whose every
    [needs] reference names an existing step, [buildExecutionOrder] returns
    a permutation of the steps in which every step comes strictly after a
    step of each id it needs (after the step of that id, when ids are
    distinct), and the order is the one the rounds of the specification
    produce: each round takes the first remaining step, in declaration
    order, whose dependencies have all been placed. *)
Theorem buildExecutionOrder_topological (steps : list Step) :
  references_exist steps → acyclic steps →
  buildExecutionOrder steps ≡ₚ steps
  ∧ after_needs (buildExecutionOrder steps)
  ∧ (NoDup (id <$> steps) →
     ∀ s t, s ∈ steps → t ∈ steps → id t ∈ needs_of s →
       before (buildExecutionOrder steps) t s)
  ∧ selection [] steps (buildExecutionOrder steps).
Proof.
  intros Hrefs Hacyc.
  destruct (buildExecutionOrder_topological_aux steps Hrefs Hacyc)
    as (Hperm & Hafter & Hsel).
  split; [done|]. split; [done|]. split; [|done].
  intros Hnd s t Hs Ht Hneeds.
  rewrite <- Hperm in Hs. apply list_elem_of_lookup in Hs as [i Hi].
  destruct (Hafter i s (id t) Hi Hneeds) as (j & t' & Hji & Hj & Hid).
  assert (t' = t) as ->.
  { apply (NoDup_fmap_eq id steps); [done| |done|done].
    rewrite <- Hperm. apply list_elem_of_lookup. eauto. }
  by exists j, i.
Qed.

(** Checkable forms of the two conditions on a step list. *)
Lemma references_exist_check (steps : list Step) :
  Forall (λ s, Forall (λ d, d ∈ id <$> steps) (needs_of s)) steps →
  references_exist steps.
Proof.
  intros Hall s d Hs Hd. rewrite Forall_forall in Hall.
  specialize (Hall s Hs). rewrite Forall_forall in Hall. auto.
Qed.

Lemma ranked_acyclic (steps : list Step) (rank : string → nat) :
  Forall (λ s, Forall (λ d, rank d < rank (id s))%nat (needs_of s)) steps →
  acyclic steps.
Proof.
  intros Hall.
  assert (Hdown : ∀ a b, tc (depends steps) a b → (rank b < rank a)%nat).
  { induction 1 as [a b (s & Hs & <- & Hd)|a b c (s & Hs & <- & Hd) _ IH].
    - rewrite Forall_forall in Hall. specialize (Hall s Hs).
      rewrite Forall_forall in Hall. auto.
    - rewrite Forall_forall in Hall. specialize (Hall s Hs).
      rewrite Forall_forall in Hall. specialize (Hall b Hd). lia. }
  intros a Ha. specialize (Hdown a a Ha). lia.
Qed.

Lemma buildExecutionOrder_topological_witness :
  references_exist ordered_test_steps ∧ acyclic ordered_test_steps
  ∧ id <$> buildExecutionOrder ordered_test_steps = ["first"; "second"; "third"]
  ∧ buildExecutionOrder ordered_test_steps ≡ₚ ordered_test_steps
  ∧ after_needs (buildExecutionOrder ordered_test_steps)
  ∧ (NoDup (id <$> ordered_test_steps) →
     ∀ s t, s ∈ ordered_test_steps → t ∈ ordered_test_steps →
       id t ∈ needs_of s →
       before (buildExecutionOrder ordered_test_steps) t s)
  ∧ selection [] ordered_test_steps (buildExecutionOrder ordered_test_steps).
Proof.
  assert (Hrefs : references_exist ordered_test_steps).
  { apply references_exist_check. compute_done. }
  assert (Hacyc : acyclic ordered_test_steps).
  { apply (ranked_acyclic _ (λ i, if decide (i = "first") then 0
                                  else if decide (i = "second") then 1 else 2)%nat).
    compute_done. }
  split; [exact Hrefs|]. split; [exact Hacyc|]. split; [by vm_compute|].
  exact (buildExecutionOrder_topological ordered_test_steps Hrefs Hacyc).
Defined.

(** ** Ties between steps *)

Lemma selection_prefix placed remaining order :
  selection placed remaining order →
  ∃ rest, order = placed ++ rest ∧ rest ≡ₚ remaining.
Proof.
  induction 1 as [placed|placed remaining i next order Hi _ _ _ (rest & -> & Hp)].
  - exists []. by rewrite app_nil_r.
  - exists (next :: rest). rewrite <- app_assoc. split; [done|].
    by rewrite Hp, <- (delete_Permutation remaining i next).
Qed.

Lemma before_delete (l : list Step) i s t :
  before l s t → l !! i ≠ Some s → l !! i ≠ Some t → before (delete i l) s t.
Proof.
  intros (a & b & Hab & Ha & Hb) Hns Hnt.
  assert (a ≠ i) by (intros ->; done). assert (b ≠ i) by (intros ->; done).
  destruct (decide (a < i)%nat), (decide (b < i)%nat).
  - exists a, b. by rewrite !list_lookup_delete_lt.
  - exists a, (b - 1)%nat. rewrite list_lookup_delete_lt by done.
    rewrite list_lookup_delete_ge by lia.
    replace (S (b - 1)) with b by lia. split; [lia|done].
  - lia.
  - exists (a - 1)%nat, (b - 1)%nat. rewrite !list_lookup_delete_ge by lia.
    replace (S (a - 1)) with a by lia. replace (S (b - 1)) with b by lia.
    split; [lia|done].
Qed.

Lemma selection_tiebreak placed remaining order :
  selection placed remaining order →
  NoDup (id <$> placed ++ remaining) →
  ∀ s t, before remaining s t →
    (∀ d, d ∈ needs_of s → ∃ u, id u = d ∧ before order u t) →
    before order s t.
Proof.
  induction 1 as [placed|placed remaining i next order Hi Hnext Hfirst Hsel IH];
    intros Hnd s t Hbefore Hdeps.
  - destruct Hbefore as (a & b & _ & Ha & _). by rewrite lookup_nil in Ha.
  - destruct (selection_prefix _ _ _ Hsel) as (rest & Horder & Hrest).
    rewrite <- app_assoc in Horder. simpl in Horder.
    assert (Hperm : order ≡ₚ placed ++ remaining).
    { rewrite Horder, Hrest. by rewrite <- (delete_Permutation remaining i next). }
    assert (Hnd_order : NoDup order).
    { apply (NoDup_fmap_1 id). by rewrite Hperm. }
    assert (Hnext_at : order !! length placed = Some next).
    { rewrite Horder. by rewrite list_lookup_middle. }
    assert (Hnd_rem : NoDup remaining).
    { apply NoDup_fmap_1 with (f := id). rewrite fmap_app in Hnd.
      by apply NoDup_app in Hnd as (_ & _ & Hnd). }
    destruct (decide (remaining !! i = Some t)) as [Ht|Ht].
    + (* [t] is selected in this round: [s], earlier, was not ready *)
      exfalso. assert (t = next) as -> by congruence.
      destruct Hbefore as (a & b & Hab & Ha & Hb).
      assert (b = i) as -> by (by eapply (NoDup_lookup remaining)).
      apply (Hfirst a s Hab Ha). intros d Hd.
      destruct (Hdeps d Hd) as (u & <- & p & q & Hpq & Hp & Hq).
      assert (q = length placed) as -> by (by eapply (NoDup_lookup order)).
      rewrite Horder, lookup_app_l in Hp by done.
      apply list_elem_of_fmap. exists u. split; [done|].
      apply list_elem_of_lookup. eauto.
    + destruct (decide (remaining !! i = Some s)) as [Hs|Hs].
      * (* [s] is selected in this round: [t] comes later *)
        assert (s = next) as -> by congruence.
        assert (Ht_rest : t ∈ rest).
        { rewrite Hrest. destruct Hbefore as (a & b & Hab & Ha & Hb).
          assert (a = i) as -> by (by eapply (NoDup_lookup remaining)).
          apply list_elem_of_lookup. exists (b - 1)%nat.
          rewrite list_lookup_delete_ge by lia.
          by replace (S (b - 1)) with b by lia. }
        apply list_elem_of_lookup in Ht_rest as [k Hk].
        exists (length placed), (length placed + S k)%nat.
        split; [lia|]. split; [done|].
        rewrite Horder, lookup_app_r by lia.
        by replace (length placed + S k - length placed)%nat with (S k) by lia.
      * apply IH.
        -- rewrite <- app_assoc. simpl.
           by rewrite <- (delete_Permutation remaining i next).
        -- by apply before_delete.
        -- done.
Qed.

(** C9, as the code has it.  Among steps with distinct ids, a step [s]
    declared before a step [t] is placed before [t] whenever every step
    that [s] needs is placed before [t]; in particular a step without
    [needs] precedes every step declared after it. *)
Theorem buildExecutionOrder_declaration_order (steps : list Step) (s t : Step) :
  references_exist steps → acyclic steps → NoDup (id <$> steps) →
  before steps s t →
  (∀ d, d ∈ needs_of s →
     ∃ u, id u = d ∧ before (buildExecutionOrder steps) u t) →
  before (buildExecutionOrder steps) s t.
Proof.
  intros Hrefs Hacyc Hnd Hbefore Hdeps.
  destruct (buildExecutionOrder_topological_aux steps Hrefs Hacyc) as (_ & _ & Hsel).
  by apply (selection_tiebreak [] steps _ Hsel).
Qed.

Lemma buildExecutionOrder_declaration_order_witness :
  before greedy_steps step_b step_c
  ∧ before (buildExecutionOrder greedy_steps) step_b step_c.
Proof.
  assert (Hbefore : before greedy_steps step_b step_c).
  { exists 1%nat, 2%nat. split; [lia|done]. }
  split; [exact Hbefore|].
  apply (buildExecutionOrder_declaration_order greedy_steps step_b step_c).
  - apply references_exist_check. compute_done.
  - apply (ranked_acyclic _ (λ i, if decide (i = "x") then 1 else 0)%nat).
    compute_done.
  - compute_done.
  - exact Hbefore.
  - intros d Hd. by apply elem_of_nil in Hd.
Defined.

Lemma tc_first_edge {A} (R : relation A) a b : tc R a b → ∃ y, R a y.
Proof. destruct 1; eauto. Qed.

Lemma tc_last_edge {A} (R : relation A) a b : tc R a b → ∃ z, R z b.
Proof. induction 1; eauto. Qed.

(** C9 as stated fails: [x] (needs [c]) is declared before [b], neither
    reaches the other through [needs], and the resolver places [b] first. *)
Lemma independent_steps_out_of_declaration_order :
  references_exist greedy_steps ∧ acyclic greedy_steps
  ∧ NoDup (id <$> greedy_steps)
  ∧ before greedy_steps step_x step_b
  ∧ independent greedy_steps step_x step_b
  ∧ buildExecutionOrder greedy_steps = [step_b; step_c; step_x]
  ∧ ¬ before (buildExecutionOrder greedy_steps) step_x step_b.
Proof.
  split; [apply references_exist_check; compute_done|].
  split.
  { apply (ranked_acyclic _ (λ i, if decide (i = "x") then 1 else 0)%nat).
    compute_done. }
  split; [compute_done|].
  split; [exists 0%nat, 1%nat; split; [lia|done]|].
  split; [split|].
  - intros Htc. apply tc_last_edge in Htc as (z & s & Hs & _ & Hd).
    assert (Hnone : Forall (λ s, id step_b ∉ needs_of s) greedy_steps)
      by compute_done.
    rewrite Forall_forall in Hnone. by apply (Hnone s Hs).
  - intros Htc. apply tc_first_edge in Htc as (y & s & Hs & Hid & Hd).
    assert (Hnone : Forall (λ s, id s = id step_b → needs_of s = []) greedy_steps)
      by compute_done.
    rewrite Forall_forall in Hnone. rewrite (Hnone s Hs Hid) in Hd.
    by apply elem_of_nil in Hd.
  - assert (Horder : buildExecutionOrder greedy_steps = [step_b; step_c; step_x])
      by (vm_compute; reflexivity).
    split; [exact Horder|]. rewrite Horder.
    intros (i & j & Hij & Hi & Hj).
    destruct j as [|j]; [lia|].
    destruct j as [|[|j]]; simpl in Hj; discriminate.
Qed.

(** ** The enforcement gate *)

(** C2. Under strict enforcement (configured, or by default), while an
    execution is active and its current step is a script step, the gate
    throws for a tool exactly when the tool is not always allowed, and the
    error names the tool and the id of the current step; an always-allowed
    tool passes whatever the state and the mode. *)
Theorem strict_script_step_gate :
  (∀ plugin store ref execution step tool,
     getActive (executionManager plugin) = Some ref →
     store !! ref = Some execution →
     currentStep execution = Some step →
     step_type step = "script" →
     default strict (config_enforcement plugin) = strict →
     (tool ∈ ALWAYS_ALLOWED_TOOLS →
        handleToolExecuteBefore plugin store tool = Returned ())
     ∧ (tool ∉ ALWAYS_ALLOWED_TOOLS →
        handleToolExecuteBefore plugin store tool =
          Thrown ("[abilities] Tool '" +:+ tool
                  +:+ "' blocked during script step '" +:+ id step
                  +:+ "'. Script steps run deterministically - wait for completion.")))
  ∧ (∀ plugin store tool,
       tool ∈ ALWAYS_ALLOWED_TOOLS →
       handleToolExecuteBefore plugin store tool = Returned ()).
Proof.
  split.
  - intros plugin store ref execution step tool Href Hstore Hstep Htype Hmode.
    unfold handleToolExecuteBefore. rewrite Href. simpl. rewrite Hstore, Hstep.
    rewrite Hmode. simpl. split; intros Htool.
    + by rewrite bool_decide_eq_true_2.
    + rewrite bool_decide_eq_false_2 by done.
      unfold getStepTypeBlockMessage. rewrite Htype. reflexivity.
  - intros plugin store tool Htool. unfold handleToolExecuteBefore.
    destruct (getActive _ ≫= _) as [execution|]; [|done].
    destruct (currentStep execution) as [step|]; [|done].
    destruct (decide _); [done|]. by rewrite bool_decide_eq_true_2.
Qed.

Lemma strict_script_step_gate_witness :
  handleToolExecuteBefore default_plugin busy_store "read" = Returned ()
  ∧ handleToolExecuteBefore default_plugin busy_store "bash" =
      Thrown ("[abilities] Tool 'bash' blocked during script step 'a'. "
              +:+ "Script steps run deterministically - wait for completion.").
Proof.
  destruct strict_script_step_gate as [Hscript _].
  destruct (Hscript default_plugin busy_store 0%nat mid_run
              (script "a" "exit 1" None (Some 0) None) "read")
    as [Hread _]; try reflexivity.
  destruct (Hscript default_plugin busy_store 0%nat mid_run
              (script "a" "exit 1" None (Some 0) None) "bash")
    as [_ Hbash]; try reflexivity.
  split; [apply Hread|apply Hbash]; compute_done.
Defined.

(** ** The execution manager *)

Section manager_facts.
Context `{Host}.

(** C6, as the code has it.  [cancel] returns [false] and changes nothing
    when no execution is active, and also when the active execution is not
    running.  When the active execution is running, [cancel] marks it
    [failed] with the error "Cancelled by user" and a completion time, leaves
    its other fields and every other execution alone, clears the active
    slot and returns [true]. *)
Theorem cancel_marks_failed (manager : ExecutionManager)
    (store : gmap nat AbilityExecution) (w : World) :
  (getActive manager = None →
     cancel manager store w = ((false, manager, store), w))
  ∧ (∀ ref active,
       getActive manager = Some ref → store !! ref = Some active →
       exec_status active ≠ running →
       cancel manager store w = ((false, manager, store), w))
  ∧ (∀ ref active,
       getActive manager = Some ref → store !! ref = Some active →
       exec_status active = running →
       ∃ manager' store' cancelled,
         cancel manager store w = ((true, manager', store'), (Date_now w).2)
         ∧ getActive manager' = None
         ∧ store' !! ref = Some cancelled
         ∧ exec_status cancelled = failed
         ∧ exec_error cancelled = Some "Cancelled by user"
         ∧ exec_completedAt cancelled = Some (Date_now w).1
         ∧ exec_id cancelled = exec_id active
         ∧ completedSteps cancelled = completedSteps active
         ∧ currentStep cancelled = currentStep active
         ∧ ∀ other, other ≠ ref → store' !! other = store !! other).
Proof.
  unfold getActive, cancel. split; [|split].
  - by intros ->.
  - intros ref active -> -> Hstatus. by destruct (decide _).
  - intros ref active -> -> Hstatus. destruct (decide _); [|done].
    unfold bind, ret. destruct (Date_now w) as [now w'] eqn:Hnow. simpl.
    eexists _, _, _. split; [reflexivity|].
    split; [done|]. split; [apply lookup_insert_eq|].
    repeat split. intros other Hother. by rewrite lookup_insert_ne.
Qed.

End manager_facts.

Lemma cancel_marks_failed_witness :
  getActive busy_manager = Some 0%nat ∧ busy_store !! 0%nat = Some mid_run
  ∧ exec_status mid_run = running
  ∧ ∃ manager' store' cancelled,
      @cancel clock_host busy_manager busy_store 500
        = ((true, manager', store'), 501)
      ∧ getActive manager' = None
      ∧ store' !! 0%nat = Some cancelled
      ∧ exec_status cancelled = failed
      ∧ exec_error cancelled = Some "Cancelled by user"
      ∧ exec_completedAt cancelled = Some 500.
Proof.
  split; [reflexivity|]. split; [reflexivity|]. split; [reflexivity|].
  destruct (@cancel_marks_failed clock_host busy_manager busy_store 500)
    as (_ & _ & Hrunning).
  destruct (Hrunning 0%nat mid_run) as (m & s & c & ? & ? & ? & ? & ? & ? & _);
    try reflexivity.
  exists m, s, c. repeat split; assumption.
Defined.

(** C6 as stated fails: cancelling a running execution leaves it with the
    status [failed], whose name is not "cancelled"; no status of that name
    exists. *)
Lemma cancel_status_is_not_cancelled :
  (∃ manager' store' cancelled,
     @cancel clock_host busy_manager busy_store 500
       = ((true, manager', store'), 501)
     ∧ store' !! 0%nat = Some cancelled
     ∧ status_name (exec_status cancelled) = "failed"
     ∧ status_name (exec_status cancelled) ≠ "cancelled")
  ∧ ∀ s, status_name s ≠ "cancelled".
Proof.
  split.
  - eexists _, _, _. split; [reflexivity|]. split; [done|]. by split.
  - by intros [].
Qed.

(** ** Executions end in a terminal state *)

Section terminal_facts.
Context `{Host}.

Lemma run_steps_terminal ctx orderedSteps i e w :
  terminal (run_steps ctx orderedSteps i e w).1.
Proof.
  revert i e w. induction orderedSteps as [|step later IH]; intros i e w; simpl.
  - unfold bind, ret. destruct (Date_now w) as [now w']. simpl.
    repeat split; [by left|done|by eexists].
  - unfold bind at 1.
    destruct (executeScriptStep step (enter_step e step i) ctx w) as [result w1].
    destruct (decide (status result = step_failed)).
    + unfold bind, ret. destruct (Date_now w1) as [now w2]. simpl.
      repeat split; [by right|done|by eexists].
    + apply IH.
Qed.

Lemma executeAbility_terminal ability inputs ctx w :
  terminal (executeAbility ability inputs ctx w).1.
Proof.
  unfold executeAbility. destruct (decide _).
  - unfold bind, ret. destruct (generateExecutionId w) as [ident w1].
    destruct (Date_now w1) as [started w2]. destruct (Date_now w2) as [finished w3].
    simpl. repeat split; [by right|done|by eexists].
  - unfold bind at 1. destruct (generateExecutionId w) as [ident w1].
    unfold bind at 1. destruct (Date_now w1) as [started w2].
    apply run_steps_terminal.
Qed.

(** C10. Every execution returned by [executeAbility] is [completed] or
    [failed], not [running], and has its completion time set.  [execute]
    throws when an execution is active and running, and otherwise returns;
    whenever it returns, the execution it returns is terminal, it is the one
    stored under the returned reference, and the active slot is empty. *)
Theorem execute_leaves_no_active_execution :
  (∀ ability inputs ctx w,
     terminal (executeAbility ability inputs ctx w).1)
  ∧ (∀ manager store ability inputs ctx w,
       match (execute manager store ability inputs ctx w).1 with
       | (Returned ref, manager', store') =>
           running_ability manager store = None
           ∧ getActive manager' = None
           ∧ store' !! ref = Some (executeAbility ability inputs ctx w).1
           ∧ terminal (executeAbility ability inputs ctx w).1
       | (Thrown msg, manager', store') =>
           (∃ busy, running_ability manager store = Some busy
                    ∧ msg = "Already executing ability: " +:+ busy)
           ∧ manager' = manager ∧ store' = store
       end).
Proof.
  split; [apply executeAbility_terminal|].
  intros manager store ability inputs ctx w. unfold execute.
  destruct (running_ability manager store) as [busy|] eqn:Hbusy.
  - simpl. split; [by exists busy|done].
  - unfold bind, ret.
    pose proof (executeAbility_terminal ability inputs ctx w) as Hterm.
    destruct (executeAbility ability inputs ctx w) as [execution w1]. simpl in *.
    split; [done|]. destruct Hterm as (Hstatus & Hrun & Hdone).
    destruct (decide (exec_status execution ≠ running)); [|done].
    split; [done|]. split; [apply lookup_insert_eq|]. by split.
Qed.

End terminal_facts.

(** ** Strings *)

Section string_facts.

Lemma append_cons (x : ascii) (a b : string) :
  String x a +:+ b = String x (a +:+ b).
Proof. reflexivity. Qed.

Lemma append_assoc (a b c : string) : (a +:+ b) +:+ c = a +:+ (b +:+ c).
Proof.
  induction a as [|x a IH]; [done|]. by rewrite !append_cons, IH.
Qed.

Lemma append_nil_r (a : string) : a +:+ "" = a.
Proof. induction a as [|x a IH]; [done|]. by rewrite append_cons, IH. Qed.

Lemma length_append (a b : string) :
  String.length (a +:+ b) = (String.length a + String.length b)%nat.
Proof.
  induction a as [|x a IH]; [done|]. rewrite append_cons. simpl. by rewrite IH.
Qed.


End string_facts.

(** ** Interpolation *)

Section interpolation_facts.

Lemma strip_prefix_app p s : strip_prefix p (p +:+ s) = Some s.
Proof.
  induction p as [|c p IH]; [done|]. rewrite append_cons. simpl.
  by destruct (decide (c = c)).
Qed.

Lemma strip_prefix_Some p s r : strip_prefix p s = Some r → s = p +:+ r.
Proof.
  revert s. induction p as [|c p IH]; intros s; simpl.
  - by intros [= ->].
  - destruct s as [|c' s]; [done|]. destruct (decide (c = c')) as [<-|]; [|done].
    intros Hr. by rewrite (IH _ Hr).
Qed.


Lemma span_word_word name rest :
  word name → stops rest → span_word (name +:+ rest) = (name, rest).
Proof.
  intros Hname Hrest. induction name as [|x name IH].
  - destruct rest as [|c rest]; [done|]. simpl in *. by rewrite Hrest.
  - rewrite append_cons. simpl in *. apply andb_True in Hname as [Hx Hname].
    destruct (is_word_char x); [|done]. by rewrite (IH Hname).
Qed.

Lemma span_word_split s : s = (span_word s).1 +:+ (span_word s).2.
Proof.
  induction s as [|x s IH]; [done|]. simpl.
  destruct (is_word_char x); [|done].
  destruct (span_word s) as [w rest]. simpl in *. by rewrite IH at 1.
Qed.

Lemma match_placeholder_intro name post :
  word name → name ≠ "" →
  match_placeholder ("{{inputs." +:+ name +:+ "}}" +:+ post) = Some name.
Proof.
  intros Hname Hne. unfold match_placeholder.
  rewrite strip_prefix_app, span_word_word by done.
  destruct (decide (name = "")); [done|]. by rewrite strip_prefix_app.
Qed.




Lemma replace_all_match inputs c s name :
  match_placeholder (String c s) = Some name →
  replace_all inputs 0 (String c s)
  = replacement inputs name +:+ replace_all inputs (10 + String.length name) s.
Proof.
  intros Hm.
  change (replace_all inputs 0 (String c s))
    with (match match_placeholder (String c s) with
          | Some name =>
              replacement inputs name
                +:+ replace_all inputs (10 + String.length name) s
          | None => String c (replace_all inputs 0 s)
          end).
  by rewrite Hm.
Qed.

Lemma replace_all_copy inputs c s :
  match_placeholder (String c s) = None →
  replace_all inputs 0 (String c s) = String c (replace_all inputs 0 s).
Proof.
  intros Hm.
  change (replace_all inputs 0 (String c s))
    with (match match_placeholder (String c s) with
          | Some name =>
              replacement inputs name
                +:+ replace_all inputs (10 + String.length name) s
          | None => String c (replace_all inputs 0 s)
          end).
  by rewrite Hm.
Qed.

Lemma replace_all_skip inputs pre s :
  replace_all inputs (String.length pre) (pre +:+ s) = replace_all inputs 0 s.
Proof. induction pre as [|c pre IH]; [done|]. by rewrite append_cons. Qed.


Lemma replace_all_input_head inputs name post :
  word name → name ≠ "" →
  replace_all inputs 0 ("{{inputs." +:+ name +:+ "}}" +:+ post)
  = replacement inputs name +:+ replace_all inputs 0 post.
Proof.
  intros Hname Hne.
  pose proof (match_placeholder_intro name post Hname Hne) as Hm.
  change ("{{inputs." +:+ name +:+ "}}" +:+ post)
    with (String "{" ("{inputs." +:+ name +:+ "}}" +:+ post)) in *.
  rewrite (replace_all_match _ _ _ _ Hm). f_equal.
  replace ("{inputs." +:+ name +:+ "}}" +:+ post)
    with (("{inputs." +:+ name +:+ "}}") +:+ post)
    by (by rewrite !append_assoc).
  replace (10 + String.length name)%nat
    with (String.length ("{inputs." +:+ name +:+ "}}")).
  - apply replace_all_skip.
  - rewrite !length_append. simpl. lia.
Qed.




End interpolation_facts.




(** ** Running steps *)

Section step_facts.
Context `{Host}.

(** [executeScriptStep], its effects in order. *)
Lemma executeScriptStep_unfold step execution ctx w :
  executeScriptStep step execution ctx w
  = let '(started, w0) := Date_now w in
    let '(outcome, w1) :=
      spawn (command_of (exec_inputs execution) step) (options_of step ctx w0) w0 in
    let '(finished, w2) := Date_now w1 in
    let '(finished', w3) := Date_now w2 in
    (match outcome with
     | SpawnThrows msg =>
         {| stepId := id step; status := step_failed; output := None;
            error := Some msg; startedAt := started; completedAt := finished;
            duration := finished' - started |}
     | ProcClose out err exit =>
         match validation step ≫= exit_code with
         | Some expected =>
             if decide (default 1 exit ≠ expected) then
               {| stepId := id step; status := step_failed;
                  output := Some (str_or (Some out) err);
                  error := Some ("Exit code " +:+ pretty (default 1 exit)
                                 +:+ ", expected " +:+ pretty expected);
                  startedAt := started; completedAt := finished;
                  duration := finished' - started |}
             else
               {| stepId := id step; status := step_completed;
                  output := Some (str_or (Some out) err); error := None;
                  startedAt := started; completedAt := finished;
                  duration := finished' - started |}
         | None =>
             {| stepId := id step; status := step_completed;
                output := Some (str_or (Some out) err); error := None;
                startedAt := started; completedAt := finished;
                duration := finished' - started |}
         end
     | ProcError out msg =>
         match validation step ≫= exit_code with
         | Some expected =>
             if decide (1 ≠ expected) then
               {| stepId := id step; status := step_failed;
                  output := Some (str_or (Some out) msg);
                  error := Some ("Exit code " +:+ pretty 1
                                 +:+ ", expected " +:+ pretty expected);
                  startedAt := started; completedAt := finished;
                  duration := finished' - started |}
             else
               {| stepId := id step; status := step_completed;
                  output := Some (str_or (Some out) msg); error := None;
                  startedAt := started; completedAt := finished;
                  duration := finished' - started |}
         | None =>
             {| stepId := id step; status := step_completed;
                output := Some (str_or (Some out) msg); error := None;
                startedAt := started; completedAt := finished;
                duration := finished' - started |}
         end
     end, w3).
Proof.
  unfold executeScriptStep, runScript, bind, ret, command_of, options_of.
  destruct (Date_now w) as [started w0]. simpl.
  destruct (spawn _ _ w0) as [outcome w1].
  destruct outcome as [msg|out err exit|out msg]; simpl.
  - by destruct (Date_now w1) as [? w2], (Date_now w2).
  - destruct (validation step ≫= exit_code) as [expected|];
      [destruct (decide _)|];
      by destruct (Date_now w1) as [? w2], (Date_now w2).
  - destruct (validation step ≫= exit_code) as [expected|];
      [destruct (decide _)|];
      by destruct (Date_now w1) as [? w2], (Date_now w2).
Qed.

Lemma executeScriptStep_stepId step execution ctx w :
  stepId (executeScriptStep step execution ctx w).1 = id step.
Proof.
  rewrite executeScriptStep_unfold.
  destruct (Date_now w) as [started w0].
  destruct (spawn _ _ w0) as [outcome w1].
  destruct (Date_now w1) as [finished w2]. destruct (Date_now w2) as [finished' w3].
  destruct outcome; simpl; [done| |];
    by destruct (validation step ≫= exit_code); [destruct (decide _)|].
Qed.

Lemma run_steps_nil ctx i e w :
  run_steps ctx [] i e w
  = let '(now, w') := Date_now w in (complete_execution e now, w').
Proof. reflexivity. Qed.

Lemma run_steps_cons ctx step later i e w :
  run_steps ctx (step :: later) i e w
  = let '(result, w1) := executeScriptStep step (enter_step e step i) ctx w in
    if decide (status result = step_failed) then
      let '(now, w2) := Date_now w1 in
      (abort_execution (record_result (enter_step e step i) step result) result now,
       w2)
    else
      run_steps ctx later (i + 1)
        (record_result (enter_step e step i) step result) w1.
Proof.
  simpl. unfold bind at 1.
  destruct (executeScriptStep step (enter_step e step i) ctx w) as [result w1].
  by destruct (decide (status result = step_failed)).
Qed.

End step_facts.

Section logging_facts.
Context (H : Host).

(** Under the recording host a step leaves exactly its command in the
    record. *)
Lemma executeScriptStep_logged step execution ctx (w : @World H) log :
  (@executeScriptStep (logging H) step execution ctx (w, log)).2.2
  = log ++ [command_of (exec_inputs execution) step].
Proof.
  rewrite (@executeScriptStep_unfold (logging H)). simpl.
  destruct (@Date_now H w) as [started w0]. simpl.
  destruct (@spawn H _ _ w0) as [outcome w1]. simpl.
  destruct (@Date_now H w1) as [finished w2]. simpl.
  by destruct (@Date_now H w2) as [finished' w3].
Qed.

Lemma run_steps_logged ctx ordered i e (w : @World H) log :
  let r := @run_steps (logging H) ctx ordered i e (w, log) in
  ∃ results,
    completedSteps r.1 = completedSteps e ++ results
    ∧ stepId <$> results = id <$> take (length results) ordered
    ∧ r.2.2 = log ++ (command_of (exec_inputs e) <$> take (length results) ordered)
    ∧ is_Some (exec_completedAt r.1)
    ∧ ((exec_status r.1 = completed
        ∧ length results = length ordered
        ∧ Forall (λ x, status x ≠ step_failed) results)
       ∨ (exec_status r.1 = failed
          ∧ ∃ init last,
              results = init ++ [last]
              ∧ Forall (λ x, status x ≠ step_failed) init
              ∧ status last = step_failed
              ∧ exec_error r.1 = error last)).
Proof.
  revert i e w log. induction ordered as [|step later IH]; intros i e w log r.
  - exists []. subst r. rewrite (@run_steps_nil (logging H)). simpl.
    destruct (@Date_now H w) as [now w']. simpl.
    rewrite !app_nil_r. repeat split; [by eexists|]. left. by repeat split.
  - subst r. rewrite (@run_steps_cons (logging H)).
    pose proof (executeScriptStep_logged step (enter_step e step i) ctx w log) as Hlog.
    pose proof (@executeScriptStep_stepId (logging H) step (enter_step e step i)
                  ctx (w, log)) as Hid.
    destruct (@executeScriptStep (logging H) step (enter_step e step i) ctx (w, log))
      as [result [w1 log1]]. simpl in Hlog, Hid. subst log1.
    destruct (decide (status result = step_failed)) as [Hfailed|Hok].
    + exists [result]. simpl.
      destruct (@Date_now H w1) as [now w2]. simpl.
      rewrite Hid. repeat split; [by eexists|]. right.
      split; [done|]. exists [], result. by repeat split.
    + destruct (IH (i + 1) (record_result (enter_step e step i) step result)
                  w1 (log ++ [command_of (exec_inputs e) step]))
        as (results & Hdone & Hids & Hcmds & Hat & Hcases).
      exists (result :: results).
      change (take (length (result :: results)) (step :: later))
        with (step :: take (length results) later).
      split; [rewrite Hdone; simpl; by rewrite <- app_assoc|].
      split; [by rewrite !fmap_cons, Hid, Hids|].
      split; [rewrite Hcmds, fmap_cons, <- app_assoc; done|].
      split; [done|].
      destruct Hcases as [(Hst & Hlen & Hall)|(Hst & init & last & -> & Hall & Hlast & Herr)].
      * left. split; [done|]. split; [by simpl; rewrite Hlen|by constructor].
      * right. split; [done|]. exists (result :: init), last.
        split; [done|]. split; [by constructor|done].
Qed.

End logging_facts.

Section transparency.
Context (H : Host).

(** The recording host runs a step as the host does. *)
Lemma executeScriptStep_transparent step execution ctx (w : @World H) log :
  (@executeScriptStep (logging H) step execution ctx (w, log)).1
  = (@executeScriptStep H step execution ctx w).1
  ∧ (@executeScriptStep (logging H) step execution ctx (w, log)).2.1
    = (@executeScriptStep H step execution ctx w).2.
Proof.
  rewrite (@executeScriptStep_unfold (logging H)), (@executeScriptStep_unfold H).
  simpl. destruct (@Date_now H w) as [started w0]. simpl.
  change (@options_of (logging H) step ctx (w0, log))
    with (@options_of H step ctx w0).
  destruct (@spawn H _ _ w0) as [outcome w1]. simpl.
  destruct (@Date_now H w1) as [finished w2]. simpl.
  by destruct (@Date_now H w2) as [finished' w3].
Qed.

Lemma run_steps_transparent ctx ordered i e (w : @World H) log :
  (@run_steps (logging H) ctx ordered i e (w, log)).1
  = (@run_steps H ctx ordered i e w).1
  ∧ (@run_steps (logging H) ctx ordered i e (w, log)).2.1
    = (@run_steps H ctx ordered i e w).2.
Proof.
  revert i e w log. induction ordered as [|step later IH]; intros i e w log.
  - rewrite (@run_steps_nil (logging H)), (@run_steps_nil H). simpl.
    by destruct (@Date_now H w).
  - rewrite (@run_steps_cons (logging H)), (@run_steps_cons H).
    destruct (executeScriptStep_transparent step (enter_step e step i) ctx w log)
      as [Hr Hw].
    destruct (@executeScriptStep (logging H) step (enter_step e step i) ctx (w, log))
      as [result [w1 log1]].
    destruct (@executeScriptStep H step (enter_step e step i) ctx w)
      as [result' w1'].
    simpl in Hr, Hw. subst result' w1'.
    destruct (decide (status result = step_failed)); [|apply IH].
    simpl. by destruct (@Date_now H w1).
Qed.

(** Recording the commands changes neither the execution returned nor the
    world the host is left in. *)
Lemma logging_is_transparent ability inputs ctx (w : @World H) log :
  (@executeAbility (logging H) ability inputs ctx (w, log)).1
  = (@executeAbility H ability inputs ctx w).1
  ∧ (@executeAbility (logging H) ability inputs ctx (w, log)).2.1
    = (@executeAbility H ability inputs ctx w).2.
Proof.
  unfold executeAbility.
  change (@validateInputs (logging H) ability inputs)
    with (@validateInputs H ability inputs).
  destruct (decide _).
  - unfold generateExecutionId, bind, ret. simpl.
    destruct (@Date_now H w) as [t0 w0]. simpl.
    destruct (@random_suffix H w0) as [suffix w1]. simpl.
    destruct (@Date_now H w1) as [t1 w2]. simpl.
    by destruct (@Date_now H w2) as [t2 w3].
  - unfold generateExecutionId, bind, ret. simpl.
    destruct (@Date_now H w) as [t0 w0]. simpl.
    destruct (@random_suffix H w0) as [suffix w1]. simpl.
    destruct (@Date_now H w1) as [t1 w2]. simpl.
    apply run_steps_transparent.
Qed.

End transparency.

Section execution_facts.
Context (H : Host).

Lemma executeAbility_invalid_logged ability inputs ctx (w : @World H) log :
  let run := @executeAbility (logging H) ability inputs ctx (w, log) in
  @validateInputs H ability inputs ≠ [] →
  exec_status run.1 = failed
  ∧ completedSteps run.1 = []
  ∧ pendingSteps run.1 = steps ability
  ∧ currentStep run.1 = None
  ∧ is_Some (exec_completedAt run.1)
  ∧ exec_error run.1
    = Some ("Input validation failed: "
            +:+ String.concat ", " (message <$> @validateInputs H ability inputs))
  ∧ run.2.2 = log.
Proof.
  intros run Hinvalid. subst run. unfold executeAbility.
  change (@validateInputs (logging H) ability inputs)
    with (@validateInputs H ability inputs).
  destruct (decide (0 < length (@validateInputs H ability inputs))%nat) as [_|Hlen].
  - unfold generateExecutionId, bind, ret. simpl.
    destruct (@Date_now H w) as [t0 w0]. simpl.
    destruct (@random_suffix H w0) as [suffix w1]. simpl.
    destruct (@Date_now H w1) as [t1 w2]. simpl.
    destruct (@Date_now H w2) as [t2 w3]. simpl.
    repeat split. by eexists.
  - destruct (@validateInputs H ability inputs); [done|simpl in Hlen; lia].
Qed.

Lemma executeAbility_valid_logged ability inputs ctx (w : @World H) log :
  let run := @executeAbility (logging H) ability inputs ctx (w, log) in
  let ordered := buildExecutionOrder (steps ability) in
  @validateInputs H ability inputs = [] →
  stepId <$> completedSteps run.1
    = id <$> take (length (completedSteps run.1)) ordered
  ∧ run.2.2
    = log ++ (command_of (applyDefaults ability inputs)
                <$> take (length (completedSteps run.1)) ordered)
  ∧ is_Some (exec_completedAt run.1)
  ∧ ((exec_status run.1 = completed
      ∧ length (completedSteps run.1) = length ordered
      ∧ Forall (λ x, status x ≠ step_failed) (completedSteps run.1))
     ∨ (exec_status run.1 = failed
        ∧ ∃ init last,
            completedSteps run.1 = init ++ [last]
            ∧ Forall (λ x, status x ≠ step_failed) init
            ∧ status last = step_failed
            ∧ exec_error run.1 = error last)).
Proof.
  intros run ordered Hvalid. subst run. unfold executeAbility.
  change (@validateInputs (logging H) ability inputs)
    with (@validateInputs H ability inputs).
  rewrite Hvalid. simpl.
  unfold generateExecutionId, bind, ret. simpl.
  destruct (@Date_now H w) as [t0 w0]. simpl.
  destruct (@random_suffix H w0) as [suffix w1]. simpl.
  destruct (@Date_now H w1) as [t1 w2]. simpl.
  match goal with
  | |- context [@run_steps _ ctx ?o ?i ?e ?wl] =>
      destruct (run_steps_logged H ctx o i e w2 log)
        as (results & Hdone & Hids & Hcmds & Hat & Hcases)
  end.
  simpl in Hdone, Hcmds. fold ordered in Hdone, Hids, Hcmds, Hat, Hcases |- *.
  rewrite Hdone. by repeat split.
Qed.

End execution_facts.

(** A failed result is the last one recorded. *)
Lemma failed_result_ends_execution
    (H : Host) ability inputs ctx (w : @World H) k r :
  let run := @executeAbility H ability inputs ctx w in
  let ordered := buildExecutionOrder (steps ability) in
  completedSteps run.1 !! k = Some r →
  status r = step_failed →
  exec_status run.1 = failed
  ∧ exec_error run.1 = error r
  ∧ is_Some (exec_completedAt run.1)
  ∧ length (completedSteps run.1) = S k
  ∧ Forall (λ x, status x ≠ step_failed) (take k (completedSteps run.1))
  ∧ stepId <$> completedSteps run.1 = id <$> take (S k) ordered
  ∧ commands_spawned H ability inputs ctx w
    = command_of (applyDefaults ability inputs) <$> take (S k) ordered.
Proof.
  intros run0 ordered. subst run0.
  destruct (logging_is_transparent H ability inputs ctx w []) as [<- _].
  unfold commands_spawned.
  set (run := @executeAbility (logging H) ability inputs ctx (w, [])).
  intros Hk Hfailed.
  destruct (decide (@validateInputs H ability inputs = [])) as [Hvalid|Hinvalid].
  - destruct (executeAbility_valid_logged H ability inputs ctx w [] Hvalid)
      as (Hids & Hcmds & Hat & Hcases).
    fold run ordered in Hids, Hcmds, Hat, Hcases.
    destruct Hcases as [(_ & _ & Hall)|(Hst & init & last & Hsplit & Hall & Hlast & Herr)].
    + exfalso. rewrite Forall_forall in Hall.
      apply (Hall r); [|done]. apply list_elem_of_lookup. eauto.
    + rewrite Hsplit in Hk, Hids, Hcmds |- *.
      assert (k = length init ∧ r = last) as [-> ->].
      { destruct (decide (k < length init)%nat) as [Hlt|Hge].
        - exfalso. rewrite lookup_app_l in Hk by done.
          rewrite Forall_forall in Hall. apply (Hall r); [|done].
          apply list_elem_of_lookup. eauto.
        - rewrite lookup_app_r in Hk by lia.
          apply list_lookup_singleton_Some in Hk as [Hk ->]. split; [lia|done]. }
      rewrite length_app in Hids, Hcmds |- *. simpl in *.
      replace (length init + 1)%nat with (S (length init)) in * by lia.
      rewrite take_app_length.
      split; [done|]. split; [done|]. split; [done|]. by repeat split.
  - destruct (executeAbility_invalid_logged H ability inputs ctx w [] Hinvalid)
      as (_ & Hnone & _).
    fold run in Hnone. by rewrite Hnone in Hk.
Qed.

(** The results kept are those [executeScriptStep] returns for the steps in
    turn, up to and including the first failed one. *)
Lemma executeScriptStep_reads_inputs `{Host} step e e' ctx w :
  exec_inputs e = exec_inputs e' →
  executeScriptStep step e ctx w = executeScriptStep step e' ctx w.
Proof. intros Heq. rewrite !executeScriptStep_unfold. by rewrite Heq. Qed.

Lemma run_steps_follows_results `{Host} ctx ordered i e e0 w :
  exec_inputs e0 = exec_inputs e →
  completedSteps (run_steps ctx ordered i e w).1
  = completedSteps e ++ until_failed (results_in_turn ctx e0 ordered w).
Proof.
  revert i e w. induction ordered as [|step later IH]; intros i e w Hinputs.
  - rewrite run_steps_nil. destruct (Date_now w) as [now w']. simpl.
    by rewrite app_nil_r.
  - rewrite run_steps_cons. cbn [results_in_turn].
    rewrite (executeScriptStep_reads_inputs step (enter_step e step i) e0)
      by (by rewrite Hinputs).
    destruct (executeScriptStep step e0 ctx w) as [result w1].
    cbn [until_failed].
    destruct (decide (status result = step_failed)) as [Hfailed|Hok].
    + by destruct (Date_now w1) as [now w2].
    + rewrite (IH (i + 1) (record_result (enter_step e step i) step result) w1)
        by done.
      simpl. by rewrite <- app_assoc.
Qed.

Lemma executeAbility_follows_results `{Host} ability inputs ctx w e :
  validateInputs ability inputs = [] →
  exec_inputs e = applyDefaults ability inputs →
  completedSteps (executeAbility ability inputs ctx w).1
  = until_failed
      (results_in_turn ctx e (buildExecutionOrder (steps ability)) (loop_start w)).
Proof.
  intros Hvalid Hinputs. unfold executeAbility, loop_start.
  rewrite Hvalid. simpl. unfold bind.
  destruct (generateExecutionId w) as [ident w1]. cbn [snd].
  destruct (Date_now w1) as [started w2]. cbn [snd].
  by rewrite (run_steps_follows_results ctx _ 0 _ e w2).
Qed.

Lemma until_failed_first (results : list StepResult) k r :
  results !! k = Some r → status r = step_failed →
  Forall (λ x, status x ≠ step_failed) (take k results) →
  until_failed results = take (S k) results.
Proof.
  revert k. induction results as [|x rest IH]; intros k Hk Hfailed Hbefore;
    [done|].
  destruct k as [|k]; simpl in *.
  - injection Hk as ->. destruct (decide _); [by rewrite take_0|done].
  - apply Forall_cons in Hbefore as [Hx Hbefore].
    destruct (decide _); [done|]. f_equal. by apply IH.
Qed.

(** C3. When the result [executeScriptStep] returns for a step is
    [failed] (the steps being called in turn in the resolved order, and
    none before it having failed), the execution stops there: its status
    is [failed], its error is that step's error, it has a completion time,
    [completedSteps] holds exactly the results returned up to and including
    the failed one, one for each step of the resolved order up to the
    failing one, and the commands spawned are those of these steps only: no
    later step runs.  A script step whose process closes with an exit code
    other than the declared [validation.exit_code] has a [failed] result
    (scenario A: [a] exits 1 where 0 is expected). *)
Theorem executeAbility_stops_at_failed_step :
  (∀ (H : Host) ability inputs ctx (w : @World H) execution k r,
     let run := @executeAbility H ability inputs ctx w in
     let ordered := buildExecutionOrder (steps ability) in
     let results := results_in_turn ctx execution ordered (loop_start w) in
     @validateInputs H ability inputs = [] →
     exec_inputs execution = applyDefaults ability inputs →
     results !! k = Some r →
     status r = step_failed →
     Forall (λ x, status x ≠ step_failed) (take k results) →
     exec_status run.1 = failed
     ∧ exec_error run.1 = error r
     ∧ is_Some (exec_completedAt run.1)
     ∧ completedSteps run.1 = take (S k) results
     ∧ length (completedSteps run.1) = S k
     ∧ stepId <$> completedSteps run.1 = id <$> take (S k) ordered
     ∧ commands_spawned H ability inputs ctx w
       = command_of (applyDefaults ability inputs) <$> take (S k) ordered)
  ∧ (∀ (H : Host) step execution ctx (w : @World H) out err exit w1 expected,
       @spawn H (command_of (exec_inputs execution) step)
         (options_of step ctx (Date_now w).2) (Date_now w).2
       = (ProcClose out err exit, w1) →
       validation step ≫= exit_code = Some expected →
       default 1 exit ≠ expected →
       status (executeScriptStep step execution ctx w).1 = step_failed
       ∧ error (executeScriptStep step execution ctx w).1
         = Some ("Exit code " +:+ pretty (default 1 exit)
                 +:+ ", expected " +:+ pretty expected)).
Proof.
  split.
  - intros H ability inputs ctx w execution k r run ordered results
      Hvalid Hinputs Hk Hfailed Hbefore.
    assert (Hkept : completedSteps run.1 = take (S k) results).
    { subst run results ordered.
      rewrite (executeAbility_follows_results ability inputs ctx w execution)
        by done.
      by apply (until_failed_first _ k r). }
    assert (Hrecorded : completedSteps run.1 !! k = Some r).
    { rewrite Hkept. rewrite lookup_take_lt by lia. done. }
    destruct (failed_result_ends_execution H ability inputs ctx w k r
                Hrecorded Hfailed)
      as (Hst & Herr & Hat & Hlen & _ & Hids & Hlog).
    by repeat split.
  - intros H step execution ctx w out err exit w1 expected Hspawn Hexpect Hne.
    rewrite executeScriptStep_unfold.
    destruct (Date_now w) as [started w0]. simpl in Hspawn. rewrite Hspawn.
    destruct (Date_now w1) as [finished w2]. destruct (Date_now w2) as [finished' w3].
    rewrite Hexpect. by destruct (decide (default 1 exit ≠ expected)).
Qed.

Lemma executeAbility_stops_at_failed_step_witness :
  let run := @executeAbility clock_host scenario_A ∅ the_ctx 100 in
  let failed_a :=
    {| stepId := "a"; status := step_failed; output := Some "";
       error := Some "Exit code 1, expected 0";
       startedAt := 102; completedAt := 108; duration := 7 |} in
  @results_in_turn clock_host the_ctx mid_run
    (buildExecutionOrder (steps scenario_A)) (@loop_start clock_host 100)
    !! 0%nat = Some failed_a
  ∧ exec_status run.1 = failed
  ∧ exec_error run.1 = Some "Exit code 1, expected 0"
  ∧ completedSteps run.1 = [failed_a]
  ∧ commands_spawned clock_host scenario_A ∅ the_ctx 100 = ["exit 1"].
Proof.
  intros run failed_a.
  assert (Hk : @results_in_turn clock_host the_ctx mid_run
                 (buildExecutionOrder (steps scenario_A)) (@loop_start clock_host 100)
                 !! 0%nat = Some failed_a) by (by vm_compute).
  destruct executeAbility_stops_at_failed_step as [Hstop _].
  destruct (Hstop clock_host scenario_A ∅ the_ctx 100 mid_run 0%nat failed_a)
    as (Hst & Herr & _ & Hkept & _ & _ & Hlog).
  - by vm_compute.
  - reflexivity.
  - exact Hk.
  - reflexivity.
  - constructor.
  - split; [exact Hk|]. split; [exact Hst|]. split; [exact Herr|].
    split; [etrans; [exact Hkept|]; by vm_compute|].
    etrans; [exact Hlog|]. by vm_compute.
Defined.

(** C4 does not hold of the executor.  On scenario E, which is the input of
    the test "should continue on failure when configured", [fail] declares
    [on_failure: continue] and exits 1 where 0 is expected; the test
    expects status [completed] with [after] recorded [completed], and the
    execution ends [failed], with only the result of [fail] recorded, and
    [after] is never run. *)
Theorem on_failure_continue_is_not_honoured :
  let run := @executeAbility clock_host scenario_E ∅ the_ctx 100 in
  on_failure <$> buildExecutionOrder (steps scenario_E) = [Some "continue"; None]
  ∧ id <$> buildExecutionOrder (steps scenario_E) = ["fail"; "after"]
  ∧ exec_status run.1 = failed
  ∧ exec_status run.1 ≠ completed
  ∧ stepId <$> completedSteps run.1 = ["fail"]
  ∧ status <$> completedSteps run.1 = [step_failed]
  ∧ id <$> pendingSteps run.1 = ["after"]
  ∧ commands_spawned clock_host scenario_E ∅ the_ctx 100 = ["exit 1"].
Proof. by vm_compute. Qed.

(** ** Spawn errors *)

(** C7, as the code has it.  When the process cannot be started (the
    ['error'] event), [runScript] reports exit code 1 with the error text as
    stderr, and the step result, always returned and never thrown, has the
    error text as its output when nothing was printed; its status is
    [failed], with the error "Exit code 1, expected N", when the step
    declares a [validation.exit_code] N other than 1.  When [spawn] itself
    throws, the result is [failed] with the thrown message as its error. *)
Theorem spawn_error_step_result :
  (∀ (H : Host) step execution ctx (w : @World H) out msg w1,
     @spawn H (command_of (exec_inputs execution) step)
       (options_of step ctx (Date_now w).2) (Date_now w).2
     = (ProcError out msg, w1) →
     let r := (executeScriptStep step execution ctx w).1 in
     stepId r = id step
     ∧ output r = Some (if decide (out = "") then msg else out)
     ∧ (∀ expected, validation step ≫= exit_code = Some expected →
          expected ≠ 1 →
          status r = step_failed
          ∧ error r = Some ("Exit code 1, expected " +:+ pretty expected))
     ∧ (validation step ≫= exit_code = None
        ∨ validation step ≫= exit_code = Some 1 →
        status r = step_completed ∧ error r = None))
  ∧ (∀ (H : Host) step execution ctx (w : @World H) msg w1,
       @spawn H (command_of (exec_inputs execution) step)
         (options_of step ctx (Date_now w).2) (Date_now w).2
       = (SpawnThrows msg, w1) →
       let r := (executeScriptStep step execution ctx w).1 in
       stepId r = id step ∧ status r = step_failed
       ∧ error r = Some msg ∧ output r = None).
Proof.
  split.
  - intros H step execution ctx w out msg w1 Hspawn r. subst r.
    rewrite executeScriptStep_unfold.
    destruct (Date_now w) as [started w0]. simpl in Hspawn. rewrite Hspawn.
    destruct (Date_now w1) as [finished w2]. destruct (Date_now w2) as [finished' w3].
    destruct (validation step ≫= exit_code) as [expected|].
    + destruct (decide (1 ≠ expected)) as [Hne|He]; simpl;
        (split; [done|]); (split; [done|]); split.
      * by intros expected' [= <-] Hne'.
      * intros [?|[= ->]]; [done|]. by destruct Hne.
      * intros expected' [= <-] Hne'. exfalso. apply He. congruence.
      * done.
    + simpl. split; [done|]. split; [done|]. by split.
  - intros H step execution ctx w msg w1 Hspawn r. subst r.
    rewrite executeScriptStep_unfold.
    destruct (Date_now w) as [started w0]. simpl in Hspawn. rewrite Hspawn.
    by destruct (Date_now w1) as [finished w2], (Date_now w2).
Qed.

Lemma spawn_error_step_result_witness :
  let r := (@executeScriptStep clock_host unstartable_checked mid_run the_ctx 100).1 in
  status r = step_failed
  ∧ error r = Some "Exit code 1, expected 0"
  ∧ output r = Some "spawn sh ENOENT".
Proof.
  intros r. destruct spawn_error_step_result as [Herror _].
  destruct (Herror clock_host unstartable_checked mid_run the_ctx 100
              "" "spawn sh ENOENT" 106 eq_refl)
    as (_ & Hout & Hstatus & _).
  destruct (Hstatus 0 eq_refl) as [Hst Herr]; [done|].
  split; [exact Hst|]. split; [exact Herr|exact Hout].
Defined.

(** C7 as stated fails: a step that declares no exit code and whose command
    cannot be started has a [completed] result, without an error. *)
Lemma spawn_error_without_validation_completes :
  let r := (@executeScriptStep clock_host unstartable mid_run the_ctx 100).1 in
  @spawn clock_host (command_of (exec_inputs mid_run) unstartable)
    (@options_of clock_host unstartable the_ctx 101) 101
  = (ProcError "" "spawn sh ENOENT", 106)
  ∧ status r = step_completed
  ∧ error r = None
  ∧ output r = Some "spawn sh ENOENT".
Proof. by vm_compute. Qed.

(** ** Missing inputs *)




(** C8 fails where the omitted input is named after a member of
    [Object.prototype]: [inputs[name]] then reads that member, not
    [undefined].  With a required input [__proto__] declared an object and
    no inputs at all, validation passes, the step is spawned and the
    execution completes.  With a required string input [constructor]
    omitted, the execution fails, but on a [TYPE_MISMATCH] that does not
    name the input: no [MISSING_INPUT] error is raised. *)
Theorem omitted_prototype_named_input_is_not_missing :
  let run := @executeAbility clock_host proto_input ∅ the_ctx 100 in
  let run' := @executeAbility clock_host constructor_input ∅ the_ctx 100 in
  Types.inputs proto_input = Some [("__proto__", required_object)]
  ∧ (∅ : gmap string Value) !! "__proto__" = None
  ∧ @validateInputs clock_host proto_input ∅ = []
  ∧ exec_status run.1 = completed
  ∧ stepId <$> completedSteps run.1 = ["greet"]
  ∧ commands_spawned clock_host proto_input ∅ the_ctx 100 = ["echo hi"]
  ∧ Types.inputs constructor_input = Some [("constructor", required_string)]
  ∧ @validateInputs clock_host constructor_input ∅
    = [ {| path := "inputs.constructor";
           message := "Expected string, got function";
           code := "TYPE_MISMATCH" |} ]
  ∧ exec_status run'.1 = failed
  ∧ exec_error run'.1
    = Some "Input validation failed: Expected string, got function".
Proof. by vm_compute. Qed.

(** * Further properties *)

(** ** Structural validation *)

Section dfs_facts.
Context (steps : list Step).

Lemma chain_snoc (R : relation string) l x :
  chain R l →
  match last l with Some a => R a x | None => True end →
  chain R (l ++ [x]).
Proof.
  induction l as [|a l IH]; simpl; [done|].
  intros [Ha Hc] Hlast. destruct l as [|b l]; simpl in *; [done|].
  split; [done|]. by apply IH.
Qed.

Lemma follows_mentioned a d : follows steps a d → d ∈ mentioned steps.
Proof.
  unfold follows, needs_of_id.
  destruct (list_find _ steps) as [[i s]|] eqn:Hfind; [|by rewrite elem_of_nil].
  apply list_find_Some in Hfind as (Hi & _ & _). intros Hd.
  apply elem_of_union_r, elem_of_list_to_set, list_elem_of_bind.
  exists s. split; [done|]. apply list_elem_of_lookup. eauto.
Qed.

Lemma follows_depends a d : follows steps a d → depends steps a d.
Proof.
  unfold follows, needs_of_id.
  destruct (list_find _ steps) as [[i s]|] eqn:Hfind; [|by rewrite elem_of_nil].
  apply list_find_Some in Hfind as (Hi & Hid & _). intros Hd.
  exists s. split; [|done]. apply list_elem_of_lookup. eauto.
Qed.

Lemma depends_follows a d :
  NoDup (id <$> steps) → depends steps a d → follows steps a d.
Proof.
  intros Hnd (s & Hs & Hid & Hd). unfold follows, needs_of_id.
  destruct (list_find_elem_of (λ s', id s' = a) steps s Hs Hid) as [[i s'] Hfind].
  rewrite Hfind. apply list_find_Some in Hfind as (Hi & Hid' & _).
  assert (s' = s) as ->; [|done].
  apply (NoDup_fmap_eq id steps); [done| |done|congruence].
  apply list_elem_of_lookup. eauto.
Qed.

Lemma slice_indexOf (path : list string) x :
  x ∈ path →
  ∃ pre rest, path = pre ++ x :: rest
              ∧ slice_from (indexOf x path) path = x :: rest.
Proof.
  intros Hx. unfold indexOf, slice_from.
  destruct (list_find_elem_of (λ y, y = x) path x Hx eq_refl) as [[i y] Hfind].
  rewrite Hfind. apply list_find_Some in Hfind as (Hi & -> & _).
  destruct (decide (Z.of_nat i < 0)); [lia|]. rewrite Nat2Z.id.
  exists (take i path), (drop (S i) path).
  split; [by rewrite take_drop_middle|by apply drop_S].
Qed.

Lemma visit_spec depth :
  (∀ stepId st fin,
     dfs_inv steps st fin → stepId ∈ mentioned steps →
     (size (mentioned steps ∖ visited st) < depth)%nat →
     enters steps (dfs_path st) stepId →
     dfs_post steps st fin [stepId] (dfs steps depth stepId st)) →
  ∀ deps st fin a,
    dfs_inv steps st fin → last (dfs_path st) = Some a →
    (∀ d, d ∈ deps → follows steps a d) →
    (size (mentioned steps ∖ visited st) < depth)%nat →
    dfs_post steps st fin deps (visit_deps (dfs steps depth) deps st).
Proof.
  intros Hdfs deps. induction deps as [|dep deps IH]; intros st fin a Hinv Hlast Hdeps Hsize.
  - exists fin. simpl. split; [done|]. split; [done|]. split; [done|].
    split; [done|]. intros x Hx. by apply elem_of_nil in Hx.
  - simpl.
    assert (Hdep : follows steps a dep) by (apply Hdeps; left).
    pose proof (Hdfs dep st fin Hinv (follows_mentioned _ _ Hdep) Hsize) as Hpost.
    unfold enters in Hpost. rewrite Hlast in Hpost. specialize (Hpost Hdep).
    destruct (dfs steps depth dep st) as [[cycle| |] st1]; [done| |done].
    destruct Hpost as (fin1 & Hinv1 & Hpath1 & Hvis1 & Hfin1 & Htarget1).
    simpl in *.
    assert (Hsize1 : (size (mentioned steps ∖ visited st1) < depth)%nat).
    { eapply Nat.le_lt_trans; [|exact Hsize]. apply subseteq_size. set_solver. }
    assert (Hlast1 : last (dfs_path st1) = Some a) by (by rewrite Hpath1).
    pose proof (IH st1 fin1 a Hinv1 Hlast1
                  (λ d Hd, Hdeps d (proj2 (elem_of_cons _ _ _) (or_intror Hd))) Hsize1) as Hrest.
    unfold dfs_post in Hrest |- *.
    destruct (visit_deps (dfs steps depth) deps st1) as [[cycle| |] st2];
      [done| |done].
    destruct Hrest as (fin2 & Hinv2 & Hpath2 & Hvis2 & Hfin2 & Htarget2).
    simpl in *. exists fin2. split; [done|]. split; [congruence|].
    split; [set_solver|]. split; [auto|].
    intros x Hx. apply elem_of_cons in Hx as [->|Hx]; [|auto].
    apply Hfin2, Htarget1. left.
Qed.

Lemma dfs_spec depth stepId st fin :
  dfs_inv steps st fin → stepId ∈ mentioned steps →
  (size (mentioned steps ∖ visited st) < depth)%nat →
  enters steps (dfs_path st) stepId →
  dfs_post steps st fin [stepId] (dfs steps depth stepId st).
Proof.
  revert stepId st fin.
  induction depth as [|depth IH]; intros stepId st fin Hinv Hid Hsize Henter; [lia|].
  simpl. destruct (bool_decide (stepId ∈ recursionStack st)) eqn:Hstack.
  - (* the id is on the stack: the slice of the path closes a walk *)
    apply bool_decide_eq_true_1 in Hstack.
    apply (stack_is_path _ _ _ Hinv) in Hstack.
    destruct (slice_indexOf _ _ Hstack) as (pre & rest & Hpath & Hslice).
    unfold dfs_post. simpl. rewrite Hslice. exists stepId, rest. split; [done|].
    change (chain (follows steps) ((stepId :: rest) ++ [stepId])).
    apply chain_snoc.
    + apply (chain_app_r _ pre). rewrite <- Hpath. apply (path_chain _ _ _ Hinv).
    + unfold enters in Henter. rewrite Hpath, last_app_cons in Henter.
      by destruct (last (stepId :: rest)).
  - apply bool_decide_eq_false_1 in Hstack.
    destruct (bool_decide (stepId ∈ visited st)) eqn:Hvisited.
    + apply bool_decide_eq_true_1 in Hvisited.
      exists fin. simpl. split; [done|]. split; [done|]. split; [done|].
      split; [done|].
      intros x Hx. apply list_elem_of_singleton in Hx as ->.
      by apply (fin_finished _ _ _ Hinv).
    + apply bool_decide_eq_false_1 in Hvisited.
      set (st1 := {| visited := {[stepId]} ∪ visited st;
                     recursionStack := {[stepId]} ∪ recursionStack st;
                     dfs_path := dfs_path st ++ [stepId] |}).
      assert (Hnot_path : stepId ∉ dfs_path st).
      { intros Hin. by apply Hstack, (stack_is_path _ _ _ Hinv). }
      assert (Hinv1 : dfs_inv steps st1 fin).
      { split; simpl.
        - intros x. rewrite elem_of_union, elem_of_singleton, elem_of_app,
            list_elem_of_singleton, (stack_is_path _ _ _ Hinv). tauto.
        - apply NoDup_app. split; [apply Hinv|]. split; [|apply NoDup_singleton].
          intros x Hx Hx'. apply list_elem_of_singleton in Hx' as ->. done.
        - apply chain_snoc; [apply Hinv|done].
        - intros x Hx. apply elem_of_app in Hx as [Hx|Hx].
          + apply elem_of_union_r. by apply (path_visited _ _ _ Hinv).
          + apply list_elem_of_singleton in Hx as ->. set_solver.
        - intros x. rewrite (fin_finished _ _ _ Hinv).
          rewrite !elem_of_union, !elem_of_singleton.
          split; [intros [Hv Hs]|intros [[->|Hv] Hs]].
          + split; [by right|]. intros [->|?]; done.
          + exfalso. apply Hs. by left.
          + split; [done|]. intros ?. apply Hs. by right.
        - apply Hinv.
        - intros x Hx. apply elem_of_union in Hx as [Hx|Hx].
          + apply elem_of_singleton in Hx as ->. done.
          + by apply (visited_mentioned _ _ _ Hinv). }
      assert (Hsize1 : (size (mentioned steps ∖ visited st1) < depth)%nat).
      { assert (mentioned steps ∖ visited st1 ⊂ mentioned steps ∖ visited st)
          as Hsub%subset_size; [|lia].
        simpl. split; [set_solver|].
        intros Hsub. assert (stepId ∈ mentioned steps ∖ visited st) as Hin
          by set_solver.
        apply Hsub in Hin. set_solver. }
      pose proof (visit_spec depth IH (needs_of_id steps stepId) st1 fin stepId
                    Hinv1 (last_snoc _ _) (λ d Hd, Hd) Hsize1) as Hpost.
      fold st1. unfold dfs_post in Hpost |- *.
      destruct (visit_deps (dfs steps depth) (needs_of_id steps stepId) st1)
        as [[cycle| |] st2]; [done| |done].
      destruct Hpost as (fin2 & Hinv2 & Hpath2 & Hvis2 & Hfin2 & Htarget2).
      simpl in *.
      assert (Hnot_fin : stepId ∉ fin2).
      { intros Hin. apply (fin_finished _ _ _ Hinv2) in Hin as [_ Hin].
        apply Hin, (stack_is_path _ _ _ Hinv2). rewrite Hpath2.
        apply elem_of_app. right. by left. }
      exists (fin2 ++ [stepId]). split; [|split; [|split; [|split]]].
      * split; simpl.
        -- intros x. rewrite elem_of_difference, elem_of_singleton,
             (stack_is_path _ _ _ Hinv2), Hpath2, removelast_last, elem_of_app,
             list_elem_of_singleton.
           split; [intros [[?|?] ?]; done|].
           intros Hx. split; [by left|]. intros ->. done.
        -- rewrite Hpath2, removelast_last. apply Hinv.
        -- rewrite Hpath2, removelast_last. apply Hinv.
        -- rewrite Hpath2, removelast_last. intros x Hx.
           apply Hvis2. apply elem_of_union_r. by apply (path_visited _ _ _ Hinv).
        -- intros x. rewrite elem_of_app, list_elem_of_singleton,
             (fin_finished _ _ _ Hinv2), elem_of_difference, elem_of_singleton.
           split.
           ++ intros [[Hv Hs]| ->]; [split; [done|]; intros [? ?]; done|].
              split; [apply Hvis2; set_solver|]. intros [_ Hne]. done.
           ++ intros [Hv Hs]. destruct (decide (x = stepId)) as [->|Hne]; [by right|].
              left. split; [done|]. intros Hin. apply Hs. done.
        -- intros i b d Hi Hbd.
           destruct (decide (i < length fin2)%nat) as [Hlt|Hge].
           ++ rewrite lookup_app_l in Hi by done.
              destruct (fin_closed _ _ _ Hinv2 i b d Hi Hbd) as (j & Hj & Hjd).
              exists j. split; [done|]. rewrite lookup_app_l; [done|lia].
           ++ rewrite lookup_app_r in Hi by lia.
              apply list_lookup_singleton_Some in Hi as [Hi <-].
              apply Htarget2, list_elem_of_lookup in Hbd as [j Hj].
              exists j. pose proof (lookup_lt_Some _ _ _ Hj).
              split; [lia|]. by rewrite lookup_app_l.
        -- apply Hinv2.
      * by rewrite Hpath2, removelast_last.
      * set_solver.
      * intros x Hx. apply elem_of_app. left. auto.
      * intros x Hx. apply list_elem_of_singleton in Hx as ->.
        apply elem_of_app. right. by left.
Qed.

End dfs_facts.

Section detect_facts.
Context (steps : list Step).

Lemma detect_loop_spec depth todo st fin :
  dfs_inv steps st fin → dfs_path st = [] →
  (∀ s, s ∈ todo → id s ∈ mentioned steps) →
  (size (mentioned steps ∖ visited st) < depth)%nat →
  match detect_loop (dfs steps depth) todo st with
  | Cycle cycle => closed_walk (follows steps) cycle
  | NoCycle =>
      ∃ st' fin', dfs_inv steps st' fin'
                  ∧ (∀ x, x ∈ fin → x ∈ fin')
                  ∧ (∀ s, s ∈ todo → id s ∈ fin')
  | Exhausted => False
  end.
Proof.
  revert st fin. induction todo as [|step later IH]; intros st fin Hinv Hpath Hids Hsize.
  - exists st, fin. split; [done|]. split; [done|].
    intros s Hs. by apply elem_of_nil in Hs.
  - simpl.
    pose proof (dfs_spec steps depth (id step) st fin Hinv) as Hpost.
    unfold enters, dfs_post in Hpost. rewrite Hpath in Hpost. simpl in Hpost.
    specialize (Hpost (Hids step ltac:(left)) Hsize I).
    destruct (dfs steps depth (id step) st) as [[cycle| |] st1]; [done| |done].
    destruct Hpost as (fin1 & Hinv1 & Hpath1 & Hvis1 & Hfin1 & Htarget1).
    simpl in *.
    assert (Hsize1 : (size (mentioned steps ∖ visited st1) < depth)%nat).
    { eapply Nat.le_lt_trans; [|exact Hsize]. apply subseteq_size. set_solver. }
    pose proof (IH st1 fin1 Hinv1 Hpath1
                  (λ s Hs, Hids s (proj2 (elem_of_cons _ _ _) (or_intror Hs)))
                  Hsize1) as Hrest.
    destruct (detect_loop (dfs steps depth) later st1) as [cycle| |]; [done| |done].
    destruct Hrest as (st2 & fin2 & Hinv2 & Hfin2 & Htarget2).
    exists st2, fin2. split; [done|]. split; [auto|].
    intros s Hs. apply elem_of_cons in Hs as [->|Hs]; [|auto].
    apply Hfin2, Htarget1. left.
Qed.

Lemma empty_state_inv :
  dfs_inv steps {| visited := ∅; recursionStack := ∅; dfs_path := [] |} [].
Proof.
  split; simpl; try done.
  - intros x. by rewrite elem_of_empty, elem_of_nil.
  - constructor.
  - intros x Hx. by apply elem_of_nil in Hx.
  - intros x. rewrite elem_of_nil, elem_of_empty. tauto.
Qed.

Lemma detect_answer_spec :
  match detect_answer steps with
  | Cycle cycle => closed_walk (follows steps) cycle
  | NoCycle =>
      ∃ st' fin', dfs_inv steps st' fin' ∧ (∀ s, s ∈ steps → id s ∈ fin')
  | Exhausted => False
  end.
Proof.
  unfold detect_answer.
  pose proof (detect_loop_spec (S (size (mentioned steps))) steps _ []
                empty_state_inv eq_refl) as Hspec.
  simpl in Hspec.
  assert (Hids : ∀ s, s ∈ steps → id s ∈ mentioned steps).
  { intros s Hs. apply elem_of_union_l, elem_of_list_to_set, list_elem_of_fmap.
    by exists s. }
  assert (Hsize : (size (mentioned steps ∖ ∅) < S (size (mentioned steps)))%nat).
  { apply Nat.lt_succ_r, subseteq_size. set_solver. }
  specialize (Hspec Hids Hsize).
  destruct (detect_loop _ steps _) as [cycle| |]; [done| |done].
  destruct Hspec as (st' & fin' & Hinv & _ & Hall). by exists st', fin'.
Qed.

Lemma finished_no_cycle (fin : list string) :
  (∀ i b d, fin !! i = Some b → follows steps b d →
     ∃ j, (j < i)%nat ∧ fin !! j = Some d) →
  ∀ a, a ∈ fin → ¬ tc (follows steps) a a.
Proof.
  intros Hclosed.
  assert (Hdown : ∀ a b, tc (follows steps) a b →
            ∀ i, fin !! i = Some a → ∃ j, (j < i)%nat ∧ fin !! j = Some b).
  { induction 1 as [a b Hab|a b c Hab _ IH]; intros i Hi.
    - eauto.
    - destruct (Hclosed i a b Hi Hab) as (k & Hk & Hkb).
      destruct (IH k Hkb) as (j & Hj & Hjc). exists j. split; [lia|done]. }
  assert (Hnone : ∀ i a, fin !! i = Some a → ¬ tc (follows steps) a a).
  { intros i. induction (lt_wf i) as [i _ IH]. intros a Hi Htc.
    destruct (Hdown a a Htc i Hi) as (j & Hj & Hja). by apply (IH j Hj a). }
  intros a Ha. apply list_elem_of_lookup in Ha as [i Hi]. by apply (Hnone i).
Qed.

Lemma chain_weaken (R S : relation string) l :
  (∀ a b, R a b → S a b) → chain R l → chain S l.
Proof.
  intros HRS. induction l as [|a l IH]; simpl; [done|].
  intros [Ha Hc]. split; [|auto]. destruct l; auto.
Qed.

Lemma tc_weaken (R S : relation string) a b :
  (∀ x y, R x y → S x y) → tc R a b → tc S a b.
Proof.
  intros HRS. induction 1 as [x y Hxy|x y z Hxy _ IH].
  - by apply tc_once, HRS.
  - eapply tc_l; [by apply HRS|done].
Qed.

End detect_facts.

Lemma detectCircularDependencies_sound_aux (steps : list Step) (cycle : list string) :
  detectCircularDependencies steps = Some cycle →
  closed_walk (depends steps) cycle ∧ ¬ acyclic steps.
Proof.
  unfold detectCircularDependencies. intros Hsome.
  pose proof (detect_answer_spec steps) as Hspec.
  destruct (detect_answer steps) as [c| |]; [|done|done].
  injection Hsome as ->. destruct Hspec as (x & l & -> & Hchain).
  assert (Hchain' : chain (depends steps) (x :: l ++ [x])).
  { eapply chain_weaken; [|exact Hchain]. apply follows_depends. }
  split; [by exists x, l|]. intros Hacyc. apply (Hacyc x).
  by apply (chain_tc _ l).
Qed.

Lemma detectCircularDependencies_complete_aux (steps : list Step) :
  NoDup (id <$> steps) →
  detectCircularDependencies steps = None →
  acyclic steps.
Proof.
  unfold detectCircularDependencies. intros Hnd Hnone a Htc.
  pose proof (detect_answer_spec steps) as Hspec.
  destruct (detect_answer steps) as [c| |]; [done| |done].
  destruct Hspec as (st' & fin' & Hinv & Hall).
  assert (Htc' : tc (follows steps) a a).
  { eapply tc_weaken; [|exact Htc]. intros x y. by apply depends_follows. }
  apply (finished_no_cycle steps fin' (fin_closed _ _ _ Hinv) a); [|done].
  apply tc_first_edge in Htc as (d & s & Hs & <- & _). auto.
Qed.

(** The traversal reports only real cycles: the list returned starts and
    ends with the same id and each id in it lists the next one under
    [needs], so the step graph is not acyclic. *)
Theorem detectCircularDependencies_sound (steps : list Step) (cycle : list string) :
  detectCircularDependencies steps = Some cycle →
  closed_walk (depends steps) cycle ∧ ¬ acyclic steps.
Proof. apply detectCircularDependencies_sound_aux. Qed.

Lemma detectCircularDependencies_sound_witness :
  let steps := [ script "a" "true" (Some ["b"]) None None;
                 script "b" "true" (Some ["a"]) None None ] in
  detectCircularDependencies steps = Some ["a"; "b"; "a"]
  ∧ closed_walk (depends steps) ["a"; "b"; "a"] ∧ ¬ acyclic steps.
Proof.
  intros steps.
  assert (Hsome : detectCircularDependencies steps = Some ["a"; "b"; "a"])
    by (by vm_compute).
  split; [exact Hsome|].
  exact (detectCircularDependencies_sound steps _ Hsome).
Defined.

(** The traversal misses no cycle: when it returns [null] for steps with
    distinct ids, the [needs] graph is acyclic. *)
Theorem detectCircularDependencies_complete (steps : list Step) :
  NoDup (id <$> steps) →
  detectCircularDependencies steps = None →
  acyclic steps.
Proof. apply detectCircularDependencies_complete_aux. Qed.

Lemma detectCircularDependencies_complete_witness :
  NoDup (id <$> ordered_test_steps)
  ∧ detectCircularDependencies ordered_test_steps = None
  ∧ acyclic ordered_test_steps.
Proof.
  assert (Hnd : NoDup (id <$> ordered_test_steps)) by compute_done.
  assert (Hnone : detectCircularDependencies ordered_test_steps = None)
    by (by vm_compute).
  split; [exact Hnd|]. split; [exact Hnone|].
  exact (detectCircularDependencies_complete ordered_test_steps Hnd Hnone).
Defined.

Lemma unique_loop_nil (seen : gset string) (steps : list Step) :
  unique_loop seen steps = []
  ↔ NoDup (id <$> steps) ∧ ∀ s, s ∈ steps → id s ∉ seen.
Proof.
  revert seen. induction steps as [|step later IH]; intros seen; simpl.
  - split; [intros _|done]. split; [constructor|].
    intros s Hs. by apply elem_of_nil in Hs.
  - rewrite NoDup_cons. split.
    + intros Hnil. apply app_eq_nil in Hnil as [Hhead Hrest].
      destruct (bool_decide (id step ∈ seen)) eqn:Hseen; [done|].
      apply bool_decide_eq_false_1 in Hseen.
      apply IH in Hrest as [Hnd Hfresh]. split; [split; [|done]|].
      * intros Hin. apply list_elem_of_fmap in Hin as (s & Hid & Hs).
        apply (Hfresh s Hs). rewrite <- Hid. set_solver.
      * intros s Hs. apply elem_of_cons in Hs as [->|Hs]; [done|].
        specialize (Hfresh s Hs). set_solver.
    + intros [[Hnotin Hnd] Hfresh].
      rewrite bool_decide_eq_false_2 by (apply Hfresh; left).
      simpl. apply IH. split; [done|]. intros s Hs Hin.
      apply elem_of_union in Hin as [Hin|Hin].
      * apply elem_of_singleton in Hin. apply Hnotin, list_elem_of_fmap.
        by exists s.
      * apply (Hfresh s); [by right|done].
Qed.

Lemma unique_loop_count (seen : gset string) (steps : list Step) :
  (length (unique_loop seen steps) + size (seen ∪ list_to_set (id <$> steps))
   = length steps + size seen)%nat.
Proof.
  revert seen. induction steps as [|step later IH]; intros seen.
  - simpl. by rewrite union_empty_r_L.
  - cbn [unique_loop]. rewrite fmap_cons, list_to_set_cons, length_app.
    cbn [length]. specialize (IH ({[id step]} ∪ seen)).
    assert (Heq : seen ∪ ({[id step]} ∪ list_to_set (id <$> later))
                  = ({[id step]} ∪ seen) ∪ list_to_set (id <$> later))
      by set_solver.
    rewrite Heq.
    destruct (bool_decide (id step ∈ seen)) eqn:Hseen.
    + apply bool_decide_eq_true_1 in Hseen.
      assert (Hsame : size ({[id step]} ∪ seen) = size seen).
      { f_equal. set_solver. }
      cbn [length]. lia.
    + apply bool_decide_eq_false_1 in Hseen.
      assert (Hmore : size ({[id step]} ∪ seen) = S (size seen)).
      { rewrite size_union, size_singleton by set_solver. done. }
      cbn [length]. lia.
Qed.

(** [validateUniqueIds] accepts exactly the step lists with distinct ids,
    and reports one [DUPLICATE_ID] error for every step whose id an earlier
    step already has. *)
Theorem validateUniqueIds_distinct (steps : list Step) :
  (validateUniqueIds steps = [] ↔ NoDup (id <$> steps))
  ∧ (length (validateUniqueIds steps)
     + size (list_to_set (id <$> steps) : gset string) = length steps)%nat
  ∧ Forall (λ e, code e = "DUPLICATE_ID") (validateUniqueIds steps).
Proof.
  unfold validateUniqueIds. split; [|split].
  - rewrite unique_loop_nil. split; [by intros [? _]|].
    intros Hnd. split; [done|]. intros s _. apply not_elem_of_empty.
  - pose proof (unique_loop_count ∅ steps) as Hcount.
    rewrite union_empty_l_L, size_empty in Hcount. lia.
  - generalize (∅ : gset string). induction steps as [|step later IH]; intros seen.
    + constructor.
    + simpl. apply Forall_app. split; [|apply IH].
      destruct (bool_decide _); repeat constructor.
Qed.

Lemma bind_nil_iff {A B} (f : A → list B) (l : list A) :
  l ≫= f = [] ↔ ∀ x, x ∈ l → f x = [].
Proof.
  induction l as [|a l IH].
  - split; [intros _ x Hx; by apply elem_of_nil in Hx|done].
  - change ((a :: l) ≫= f) with (f a ++ (l ≫= f)). split.
    + intros [Ha Hl]%app_eq_nil x Hx.
      apply elem_of_cons in Hx as [->|Hx]; [done|]. by apply IH.
    + intros Hall. rewrite (Hall a) by left. simpl. apply IH.
      intros x Hx. apply Hall. by right.
Qed.

Lemma missing_dependencies_nil (steps : list Step) :
  steps ≫= missing_dependencies (list_to_set (id <$> steps)) = []
  ↔ references_exist steps.
Proof.
  rewrite bind_nil_iff. unfold references_exist, missing_dependencies, needs_of.
  split.
  - intros Hall s d Hs Hd. specialize (Hall s Hs).
    destruct (needs s) as [deps|]; simpl in Hd; [|by apply elem_of_nil in Hd].
    rewrite bind_nil_iff in Hall. specialize (Hall d Hd).
    destruct (bool_decide _) eqn:Hin; [|done].
    by apply bool_decide_eq_true_1, elem_of_list_to_set in Hin.
  - intros Hrefs s Hs. destruct (needs s) as [deps|] eqn:Hneeds; [|done].
    apply bind_nil_iff. intros d Hd.
    rewrite bool_decide_eq_true_2; [done|]. apply elem_of_list_to_set.
    apply (Hrefs s d Hs). by rewrite Hneeds.
Qed.

(** For steps with distinct ids, [validateDependencies] returns no error
    exactly when every [needs] reference names an existing step and the
    [needs] graph is acyclic. *)
Theorem validateDependencies_accepts (steps : list Step) :
  NoDup (id <$> steps) →
  validateDependencies steps = [] ↔ references_exist steps ∧ acyclic steps.
Proof.
  intros Hnd. unfold validateDependencies. split.
  - intros [Hmissing Hcycle]%app_eq_nil.
    split; [by apply missing_dependencies_nil|].
    apply detectCircularDependencies_complete_aux; [done|].
    by destruct (detectCircularDependencies steps).
  - intros [Hrefs Hacyc].
    rewrite (proj2 (missing_dependencies_nil steps) Hrefs).
    destruct (detectCircularDependencies steps) as [cycle|] eqn:Hdetect; [|done].
    by destruct (detectCircularDependencies_sound_aux steps cycle Hdetect).
Qed.

Lemma validateDependencies_accepts_witness :
  NoDup (id <$> ordered_test_steps)
  ∧ (validateDependencies ordered_test_steps = []
     ↔ references_exist ordered_test_steps ∧ acyclic ordered_test_steps)
  ∧ validateDependencies ordered_test_steps = [].
Proof.
  assert (Hnd : NoDup (id <$> ordered_test_steps)) by compute_done.
  split; [exact Hnd|].
  split; [exact (validateDependencies_accepts ordered_test_steps Hnd)|].
  by vm_compute.
Defined.

(** Steps that pass [validateUniqueIds] and [validateDependencies] are all
    placed by [buildExecutionOrder]: the order is a permutation of the
    steps, so no step is dropped, and each step comes after the steps it
    needs. *)
Theorem validated_steps_are_all_ordered (steps : list Step) :
  validateUniqueIds steps = [] →
  validateDependencies steps = [] →
  buildExecutionOrder steps ≡ₚ steps
  ∧ length (buildExecutionOrder steps) = length steps
  ∧ ∀ s t, s ∈ steps → t ∈ steps → id t ∈ needs_of s →
      before (buildExecutionOrder steps) t s.
Proof.
  intros Hunique Hdeps.
  assert (Hnd : NoDup (id <$> steps)).
  { apply unique_loop_nil in Hunique as [Hnd _]. exact Hnd. }
  unfold validateDependencies in Hdeps.
  apply app_eq_nil in Hdeps as [Hmissing Hcycle].
  assert (Hrefs : references_exist steps) by (by apply missing_dependencies_nil).
  assert (Hacyc : acyclic steps).
  { apply detectCircularDependencies_complete_aux; [done|].
    by destruct (detectCircularDependencies steps). }
  destruct (buildExecutionOrder_topological_aux steps Hrefs Hacyc)
    as (Hperm & Hafter & _).
  split; [done|]. split; [by rewrite Hperm|].
  intros s t Hs Ht Hneeds.
  rewrite <- Hperm in Hs. apply list_elem_of_lookup in Hs as [i Hi].
  destruct (Hafter i s (id t) Hi Hneeds) as (j & t' & Hji & Hj & Hid).
  assert (t' = t) as ->.
  { apply (NoDup_fmap_eq id steps); [done| |done|done].
    rewrite <- Hperm. apply list_elem_of_lookup. eauto. }
  by exists j, i.
Qed.

Lemma validated_steps_are_all_ordered_witness :
  validateUniqueIds ordered_test_steps = []
  ∧ validateDependencies ordered_test_steps = []
  ∧ buildExecutionOrder ordered_test_steps ≡ₚ ordered_test_steps
  ∧ length (buildExecutionOrder ordered_test_steps) = 3%nat.
Proof.
  assert (Hu : validateUniqueIds ordered_test_steps = []) by (by vm_compute).
  assert (Hd : validateDependencies ordered_test_steps = []) by (by vm_compute).
  destruct (validated_steps_are_all_ordered ordered_test_steps Hu Hd)
    as (Hperm & Hlen & _).
  split; [exact Hu|]. split; [exact Hd|]. split; [exact Hperm|exact Hlen].
Defined.

(** ** The resolver on arbitrary step lists *)

Lemma initial_loop_inv (steps : list Step) : loop_inv steps [] ∅ steps.
Proof.
  split; [done| |].
  - intros d. rewrite elem_of_empty. simpl. by rewrite elem_of_nil.
  - intros i s d Hi. by rewrite lookup_nil in Hi.
Qed.

Lemma order_loop_safe (steps : list Step) rounds result done remaining :
  (length remaining ≤ rounds)%nat →
  loop_inv steps result done remaining →
  ∃ dropped,
    order_loop rounds result done remaining ++ dropped ≡ₚ steps
    ∧ after_needs (order_loop rounds result done remaining)
    ∧ ∀ s, s ∈ dropped →
        ¬ dependencies_placed (order_loop rounds result done remaining) s.
Proof.
  revert result done remaining.
  induction rounds as [|rounds IH]; intros result done remaining Hlen Hinv.
  - destruct remaining; [|simpl in Hlen; lia]. exists []. simpl.
    split; [apply Hinv|]. split; [apply Hinv|].
    intros s Hs. by apply elem_of_nil in Hs.
  - simpl. destruct (decide (length remaining = 0%nat)) as [Hz|Hnz].
    + destruct remaining; [|discriminate]. exists [].
      split; [apply Hinv|]. split; [apply Hinv|].
      intros s Hs. by apply elem_of_nil in Hs.
    + destruct (list_find _ remaining) as [[i next]|] eqn:Hfind.
      * apply IH; [|by eapply loop_preserve].
        apply list_find_Some in Hfind as (Hi & _ & _).
        rewrite length_delete by (by eexists). lia.
      * exists remaining. split; [apply Hinv|]. split; [apply Hinv|].
        apply list_find_None in Hfind. rewrite Forall_forall in Hfind.
        intros s Hs Hplaced. apply (Hfind s Hs).
        by apply (ready_placed steps result done remaining).
Qed.

(** Whatever the step list (cycles, references to missing steps, repeated
    ids), [buildExecutionOrder] returns some of its steps, each at most as
    often as it is listed; every step returned comes after a step of each
    id it needs; and every step left out needs an id that no returned step
    has. *)
Theorem buildExecutionOrder_fails_safely (steps : list Step) :
  ∃ dropped,
    buildExecutionOrder steps ++ dropped ≡ₚ steps
    ∧ after_needs (buildExecutionOrder steps)
    ∧ (length (buildExecutionOrder steps) ≤ length steps)%nat
    ∧ ∀ s, s ∈ dropped → ¬ dependencies_placed (buildExecutionOrder steps) s.
Proof.
  destruct (order_loop_safe steps (length steps) [] ∅ steps (le_n _)
              (initial_loop_inv steps)) as (dropped & Hperm & Hafter & Hdropped).
  exists dropped. split; [done|]. split; [done|]. split; [|done].
  apply Permutation_length in Hperm. rewrite length_app in Hperm.
  unfold buildExecutionOrder. lia.
Qed.

Lemma placed_after_reachable (steps : list Step) :
  NoDup (id <$> steps) →
  ∀ a b, tc (depends steps) a b →
    ∀ i s, buildExecutionOrder steps !! i = Some s → id s = a →
      ∃ j t, (j < i)%nat ∧ buildExecutionOrder steps !! j = Some t ∧ id t = b.
Proof.
  intros Hnd.
  destruct (order_loop_safe steps (length steps) [] ∅ steps (le_n _)
              (initial_loop_inv steps)) as (dropped & Hperm & Hafter & _).
  fold (buildExecutionOrder steps) in Hperm, Hafter.
  assert (Hin : ∀ i s, buildExecutionOrder steps !! i = Some s → s ∈ steps).
  { intros i s Hi. rewrite <- Hperm. apply elem_of_app. left.
    apply list_elem_of_lookup. eauto. }
  assert (Hedge : ∀ a b, depends steps a b →
            ∀ i s, buildExecutionOrder steps !! i = Some s → id s = a →
              ∃ j t, (j < i)%nat ∧ buildExecutionOrder steps !! j = Some t
                     ∧ id t = b).
  { intros a b (s' & Hs' & Hid' & Hb) i s Hi Hid.
    assert (s' = s) as ->.
    { apply (NoDup_fmap_eq id steps); [done|done|by eapply Hin|congruence]. }
    by apply (Hafter i s b). }
  induction 1 as [a b Hab|a b c Hab _ IH]; intros i s Hi Hid.
  - by apply (Hedge a b Hab i s).
  - destruct (Hedge a b Hab i s Hi Hid) as (k & t & Hk & Hkt & Hidt).
    destruct (IH k t Hkt Hidt) as (j & u & Hj & Hju & Hidu).
    exists j, u. split; [lia|done].
Qed.

(** Steps that cannot be ordered are left out, without an error: a step
    that needs an id no step has is never returned, and, among steps with
    distinct ids, neither is a step that lies on a cycle of the [needs]
    graph. *)
Theorem buildExecutionOrder_drops_unresolvable (steps : list Step) (s : Step) :
  ((∃ d, d ∈ needs_of s ∧ d ∉ id <$> steps) →
   s ∉ buildExecutionOrder steps)
  ∧ (NoDup (id <$> steps) → tc (depends steps) (id s) (id s) →
     s ∉ buildExecutionOrder steps).
Proof.
  destruct (order_loop_safe steps (length steps) [] ∅ steps (le_n _)
              (initial_loop_inv steps)) as (dropped & Hperm & Hafter & _).
  fold (buildExecutionOrder steps) in Hperm, Hafter.
  split.
  - intros (d & Hd & Hmissing) Hin.
    apply list_elem_of_lookup in Hin as [i Hi].
    destruct (Hafter i s d Hi Hd) as (j & t & _ & Hj & Hid).
    apply Hmissing. rewrite <- Hperm, fmap_app. apply elem_of_app. left.
    apply list_elem_of_fmap. exists t. split; [done|].
    apply list_elem_of_lookup. eauto.
  - intros Hnd Htc Hin. apply list_elem_of_lookup in Hin as [i Hi].
    destruct (placed_after_reachable steps Hnd _ _ Htc i s Hi eq_refl)
      as (j & t & Hj & Hjt & Hid).
    assert (Hnd_out : NoDup (buildExecutionOrder steps)).
    { apply (NoDup_fmap_1 id).
      assert (Hsub : NoDup (id <$> buildExecutionOrder steps ++ dropped))
        by (by rewrite Hperm).
      rewrite fmap_app in Hsub. by apply NoDup_app in Hsub as (? & _ & _). }
    assert (t = s) as ->.
    { apply (NoDup_fmap_eq id steps); [done| | |done];
        rewrite <- Hperm; apply elem_of_app; left;
        apply list_elem_of_lookup; eauto. }
    pose proof (NoDup_lookup _ _ _ _ Hnd_out Hi Hjt). lia.
Qed.

Lemma buildExecutionOrder_drops_unresolvable_witness :
  let ghost := script "publish" "npm publish" (Some ["build"]) None None in
  let loop_a := script "a" "true" (Some ["b"]) None None in
  let loop_b := script "b" "true" (Some ["a"]) None None in
  (ghost ∉ buildExecutionOrder [step_b; ghost])
  ∧ (loop_a ∉ buildExecutionOrder [loop_a; step_c; loop_b])
  ∧ buildExecutionOrder [loop_a; step_c; loop_b] = [step_c].
Proof.
  intros ghost loop_a loop_b. split; [|split].
  - destruct (buildExecutionOrder_drops_unresolvable [step_b; ghost] ghost)
      as [Hmissing _].
    apply Hmissing. exists "build". split; [by left|]. compute_done.
  - destruct (buildExecutionOrder_drops_unresolvable
                [loop_a; step_c; loop_b] loop_a) as [_ Hcycle].
    apply Hcycle.
    + compute_done.
    + eapply tc_l; [|apply tc_once].
      * exists loop_a. split; [by left|]. split; [done|]. by left.
      * exists loop_b. split; [by do 2 right; left|]. split; [done|]. by left.
  - by vm_compute.
Defined.

Lemma order_loop_in_order rounds result remaining :
  (length remaining ≤ rounds)%nat →
  (∀ i s d, (result ++ remaining) !! i = Some s → (length result ≤ i)%nat →
     d ∈ needs_of s → d ∈ id <$> take i (result ++ remaining)) →
  order_loop rounds result (list_to_set (id <$> result)) remaining
  = result ++ remaining.
Proof.
  revert result remaining.
  induction rounds as [|rounds IH]; intros result remaining Hlen Hordered.
  - destruct remaining; [|simpl in Hlen; lia]. by rewrite app_nil_r.
  - simpl. destruct (decide (length remaining = 0%nat)) as [Hz|Hnz].
    + destruct remaining; [|discriminate]. by rewrite app_nil_r.
    + destruct remaining as [|s rest]; [done|].
      assert (Hready : Is_true (ready (list_to_set (id <$> result)) s)).
      { apply ready_spec. intros d Hd. apply elem_of_list_to_set.
        specialize (Hordered (length result) s d).
        rewrite list_lookup_middle, take_app_length in Hordered by done. auto. }
      cbn [list_find]. rewrite decide_True by done. simpl.
      replace ({[id s]} ∪ list_to_set (id <$> result) : gset string)
        with (list_to_set (id <$> result ++ [s]) : gset string).
      * rewrite IH; [by rewrite <- app_assoc| simpl in Hlen; lia|].
        rewrite <- app_assoc. simpl. intros i s' d Hi Hge.
        apply Hordered; [done|]. rewrite length_app in Hge. lia.
      * rewrite fmap_app, list_to_set_app_L. simpl. set_solver.
Qed.

(** A step list declared in an order that already respects [needs] (each
    need of a step is the id of an earlier step) is returned as it is; so
    resolving the result of [buildExecutionOrder] again changes nothing. *)
Theorem buildExecutionOrder_keeps_ordered_lists :
  (∀ steps,
     (∀ i s d, steps !! i = Some s → d ∈ needs_of s → d ∈ id <$> take i steps) →
     buildExecutionOrder steps = steps)
  ∧ (∀ steps,
       buildExecutionOrder (buildExecutionOrder steps)
       = buildExecutionOrder steps).
Proof.
  assert (Hkeep : ∀ steps,
    (∀ i s d, steps !! i = Some s → d ∈ needs_of s → d ∈ id <$> take i steps) →
    buildExecutionOrder steps = steps).
  { intros steps Hordered. unfold buildExecutionOrder.
    pose proof (order_loop_in_order (length steps) [] steps (le_n _)) as Hloop.
    simpl in Hloop. apply Hloop. intros i s d Hi _. by apply Hordered. }
  split; [exact Hkeep|].
  intros steps. apply Hkeep. intros i s d Hi Hd.
  destruct (order_loop_safe steps (length steps) [] ∅ steps (le_n _)
              (initial_loop_inv steps)) as (_ & _ & Hafter & _).
  destruct (Hafter i s d Hi Hd) as (j & t & Hj & Hjt & Hid).
  apply list_elem_of_fmap. exists t. split; [done|].
  apply list_elem_of_lookup. exists j. by rewrite lookup_take_lt.
Qed.

Lemma buildExecutionOrder_keeps_ordered_lists_witness :
  buildExecutionOrder (steps scenario_A) = steps scenario_A
  ∧ buildExecutionOrder (buildExecutionOrder greedy_steps)
    = buildExecutionOrder greedy_steps.
Proof.
  destruct buildExecutionOrder_keeps_ordered_lists as [Hkeep Hidem].
  split; [|apply Hidem]. apply Hkeep.
  intros i s d Hi Hd.
  destruct i as [|[|[|i]]]; simpl in Hi; [| | |done];
    injection Hi as <-; simpl in Hd; vm_compute in Hd.
  - by apply elem_of_nil in Hd.
  - apply list_elem_of_singleton in Hd as ->. compute_done.
  - apply list_elem_of_singleton in Hd as ->. compute_done.
Defined.

(** ** Input validation and defaults *)





Section input_facts.
Context `{Host}.


(** [validateInputs] reads only the declared inputs: keys of the inputs
    object that the ability does not declare are never rejected, whatever
    their values. *)
Theorem validateInputs_ignores_undeclared ability inputs inputs' :
  (∀ definitions name definition,
     Types.inputs ability = Some definitions →
     (name, definition) ∈ definitions → inputs !! name = inputs' !! name) →
  validateInputs ability inputs = validateInputs ability inputs'.
Proof.
  intros Hsame. unfold validateInputs.
  destruct (Types.inputs ability) as [definitions|] eqn:Hdefs; [|done].
  specialize (Hsame definitions). clear Hdefs.
  assert (Hagree : ∀ name definition,
            (name, definition) ∈ definitions → inputs !! name = inputs' !! name).
  { intros name definition. by apply Hsame. }
  clear Hsame.
  induction definitions as [|[name definition] rest IH]; [done|].
  simpl. rewrite (Hagree name definition) by left. f_equal.
  apply IH. intros n d Hin. apply (Hagree n d). by right.
Qed.

End input_facts.


Lemma validateInputs_ignores_undeclared_witness :
  @validateInputs clock_host scenario_C
    {[ "name" := VString "World" ]}
  = @validateInputs clock_host scenario_C
      (<[ "verbose" := VBool true ]> {[ "name" := VString "World" ]}).
Proof.
  apply (@validateInputs_ignores_undeclared clock_host).
  intros definitions name definition [= <-] Hin.
  apply list_elem_of_singleton in Hin as [= -> _].
  by rewrite lookup_insert_ne.
Defined.

Section defaults_facts.

Lemma fill_keeps definitions (m : gmap string Value) k v :
  m !! k = Some v → foldl fill m definitions !! k = Some v.
Proof.
  revert m. induction definitions as [|[name definition] rest IH]; intros m Hk;
    [done|].
  simpl. apply IH. unfold read.
  destruct (m !! name) eqn:Hname; [done|].
  destruct (member_named name Object_prototype); [done|].
  destruct (default_value definition); [|done].
  rewrite lookup_insert_ne; [done|]. intros ->. congruence.
Qed.

Lemma fill_undeclared definitions (m : gmap string Value) k :
  k ∉ definitions.*1 → foldl fill m definitions !! k = m !! k.
Proof.
  revert m. induction definitions as [|[name definition] rest IH]; intros m Hk;
    [done|].
  simpl in *. apply not_elem_of_cons in Hk as [Hne Hk]. rewrite IH by done.
  destruct (read (m !! name) name), (default_value definition); try done.
  by rewrite lookup_insert_ne.
Qed.

Lemma fill_inherited definitions (m : gmap string Value) k :
  m !! k = None → is_Some (member_named k Object_prototype) →
  foldl fill m definitions !! k = None.
Proof.
  revert m. induction definitions as [|[name definition] rest IH];
    intros m Hk Hmember; [done|].
  simpl. apply IH; [|done]. unfold read.
  destruct (m !! name) eqn:Hname; [done|].
  destruct (member_named name Object_prototype) eqn:Hnamed; [done|].
  destruct (default_value definition); [|done].
  rewrite lookup_insert_ne; [done|]. intros ->.
  rewrite Hnamed in Hmember. by destruct Hmember.
Qed.



Lemma fill_first_default definitions (m : gmap string Value) name definition d :
  NoDup definitions.*1 →
  (name, definition) ∈ definitions → default_value definition = Some d →
  m !! name = None → member_named name Object_prototype = None →
  foldl fill m definitions !! name = Some d.
Proof.
  revert m. induction definitions as [|[name' definition'] rest IH];
    intros m Hnd Hin Hd Hnone Hmember.
  - by apply elem_of_nil in Hin.
  - simpl in Hnd. apply NoDup_cons in Hnd as [Hfresh Hnd].
    apply elem_of_cons in Hin as [[= <- <-]|Hin].
    + simpl. unfold read. rewrite Hnone, Hmember, Hd.
      apply fill_keeps. apply lookup_insert_eq.
    + assert (name' ≠ name).
      { intros ->. apply Hfresh. apply list_elem_of_fmap. by exists (name, definition). }
      simpl. apply IH; [done|done|done| |done].
      destruct (read (m !! name') name'), (default_value definition'); try done.
      by rewrite lookup_insert_ne.
Qed.

(** [applyDefaults] never replaces a supplied value and leaves undeclared
    keys alone.  An omitted input that declares a default gets that default
    when its name is not the name of a member of [Object.prototype] (input
    names being distinct, as the keys of an object are); an omitted input
    named after such a member never gets a value, default or not. *)
Theorem applyDefaults_fills_only_gaps (ability : Ability)
    (inputs : gmap string Value) :
  (∀ name v, inputs !! name = Some v →
     applyDefaults ability inputs !! name = Some v)
  ∧ (∀ name,
       (∀ definitions, Types.inputs ability = Some definitions →
          name ∉ definitions.*1) →
       applyDefaults ability inputs !! name = inputs !! name)
  ∧ (∀ definitions name definition d,
       Types.inputs ability = Some definitions → NoDup definitions.*1 →
       (name, definition) ∈ definitions →
       default_value definition = Some d → inputs !! name = None →
       member_named name Object_prototype = None →
       applyDefaults ability inputs !! name = Some d)
  ∧ (∀ name,
       inputs !! name = None → is_Some (member_named name Object_prototype) →
       applyDefaults ability inputs !! name = None).
Proof.
  unfold applyDefaults. split; [|split; [|split]].
  - intros name v Hv. destruct (Types.inputs ability); [|done].
    by apply (fill_keeps l inputs).
  - intros name Hfresh. destruct (Types.inputs ability) as [definitions|]; [|done].
    by apply (fill_undeclared definitions inputs), Hfresh.
  - intros definitions name definition d -> Hnd Hin Hd Hnone Hmember.
    by apply (fill_first_default definitions inputs name definition d).
  - intros name Hnone Hmember.
    destruct (Types.inputs ability) as [definitions|]; [|done].
    by apply (fill_inherited definitions inputs).
Qed.


End defaults_facts.


(** ** Texts that interpolation leaves alone *)

Section unchanged_facts.

Lemma span_word_is_word s : word (span_word s).1.
Proof.
  induction s as [|x s IH]; [done|]. simpl.
  destruct (is_word_char x) eqn:Hx; [|done].
  destruct (span_word s) as [w rest]. simpl in *. by rewrite Hx.
Qed.

Lemma match_placeholder_Some s name :
  match_placeholder s = Some name →
  word name ∧ name ≠ "" ∧ ∃ post, s = "{{inputs." +:+ name +:+ "}}" +:+ post.
Proof.
  unfold match_placeholder.
  destruct (strip_prefix "{{inputs." s) as [r|] eqn:Hr; [|done].
  apply strip_prefix_Some in Hr as ->.
  pose proof (span_word_split r) as Hsplit.
  pose proof (span_word_is_word r) as Hword.
  destruct (span_word r) as [w rest]. simpl in Hsplit, Hword.
  destruct (decide (w = "")); [done|].
  destruct (strip_prefix "}}" rest) as [tail|] eqn:Htail; [|done].
  apply strip_prefix_Some in Htail as ->. intros [= <-].
  split; [done|]. split; [done|]. exists tail. by rewrite Hsplit.
Qed.

Lemma placeholders_skip pre s :
  placeholders (String.length pre) (pre +:+ s) = placeholders 0 s.
Proof. induction pre as [|c pre IH]; [done|]. by rewrite append_cons. Qed.

Lemma placeholders_head name post :
  word name → name ≠ "" →
  placeholders 0 ("{{inputs." +:+ name +:+ "}}" +:+ post)
  = name :: placeholders 0 post.
Proof.
  intros Hname Hne.
  pose proof (match_placeholder_intro name post Hname Hne) as Hm.
  change ("{{inputs." +:+ name +:+ "}}" +:+ post)
    with (String "{" ("{inputs." +:+ name +:+ "}}" +:+ post)) in *.
  cbn [placeholders]. rewrite Hm. f_equal.
  replace ("{inputs." +:+ name +:+ "}}" +:+ post)
    with (("{inputs." +:+ name +:+ "}}") +:+ post)
    by (by rewrite !append_assoc).
  replace (10 + String.length name)%nat
    with (String.length ("{inputs." +:+ name +:+ "}}")).
  - apply placeholders_skip.
  - rewrite !length_append. simpl. lia.
Qed.

Lemma replace_all_unchanged (inputs : gmap string Value) (n : nat) :
  ∀ s, (String.length s ≤ n)%nat →
    (∀ name, name ∈ placeholders 0 s → read (inputs !! name) name = Undefined) →
    replace_all inputs 0 s = s.
Proof.
  induction n as [|n IH]; intros s Hlen Hnames.
  - destruct s; [done|simpl in Hlen; lia].
  - destruct s as [|c s]; [done|].
    destruct (match_placeholder (String c s)) as [name|] eqn:Hm.
    + destruct (match_placeholder_Some _ _ Hm) as (Hword & Hne & post & Hs).
      rewrite Hs in Hnames, Hlen |- *.
      rewrite placeholders_head in Hnames by done.
      rewrite replace_all_input_head by done.
      unfold replacement. rewrite (Hnames name) by left.
      rewrite IH; [by rewrite !append_assoc| |].
      * rewrite !length_append in Hlen. simpl in Hlen. lia.
      * intros other Hother. apply Hnames. by right.
    + rewrite replace_all_copy by done. rewrite IH; [done| |].
      * simpl in Hlen. lia.
      * intros name Hname. apply Hnames. cbn [placeholders]. by rewrite Hm.
Qed.

(** Interpolation returns the text unchanged when none of the names its
    placeholders capture is defined: neither an input nor the name of a
    member of [Object.prototype]. *)
Theorem interpolateVariables_keeps_undefined (text : string)
    (inputs : gmap string Value) :
  (∀ name, name ∈ placeholders 0 text → read (inputs !! name) name = Undefined) →
  interpolateVariables text inputs = text.
Proof.
  intros Hnames. unfold interpolateVariables.
  by apply (replace_all_unchanged inputs (String.length text)).
Qed.

End unchanged_facts.

Lemma interpolateVariables_keeps_undefined_witness :
  interpolateVariables "deploy {{inputs.dry-run}} {{inputs.target}}"
    {[ "dry-run" := VBool true ]}
  = "deploy {{inputs.dry-run}} {{inputs.target}}".
Proof.
  apply interpolateVariables_keeps_undefined.
  intros name Hname.
  assert (Hfound : placeholders 0 "deploy {{inputs.dry-run}} {{inputs.target}}"
                   = ["target"]) by (by vm_compute).
  rewrite Hfound in Hname. apply list_elem_of_singleton in Hname as ->.
  by vm_compute.
Defined.

(** ** The records an execution keeps *)

Section record_facts.
Context `{Host}.

Lemma executeScriptStep_shape step execution ctx w :
  let r := (executeScriptStep step execution ctx w).1 in
  stepId r = id step
  ∧ status r ≠ step_skipped
  ∧ (status r = step_failed ↔ is_Some (error r))
  ∧ (status r = step_completed → is_Some (output r))
  ∧ (validation step ≫= exit_code = None → status r = step_failed →
     output r = None).
Proof.
  intros r. subst r. rewrite executeScriptStep_unfold.
  destruct (Date_now w) as [started w0].
  destruct (spawn _ _ w0) as [outcome w1].
  destruct (Date_now w1) as [finished w2]. destruct (Date_now w2) as [finished' w3].
  destruct outcome; simpl.
  - repeat split; try done; try (by eexists).
  - destruct (validation step ≫= exit_code); [destruct (decide _)|]; simpl;
      repeat split; try done; try (by eexists); by intros [? ?].
  - destruct (validation step ≫= exit_code); [destruct (decide _)|]; simpl;
      repeat split; try done; try (by eexists); by intros [? ?].
Qed.

(** A step result is never [skipped]; it carries an error exactly when it
    failed, an output unless the command could not be spawned, and the id of
    its step.  Without a declared exit code the only failure is a spawn that
    throws. *)
Theorem executeScriptStep_result_shape step execution ctx w :
  let r := (executeScriptStep step execution ctx w).1 in
  stepId r = id step
  ∧ status r ≠ step_skipped
  ∧ (status r = step_failed ↔ is_Some (error r))
  ∧ (status r = step_completed → is_Some (output r))
  ∧ (validation step ≫= exit_code = None → status r = step_failed →
     output r = None).
Proof. apply executeScriptStep_shape. Qed.

Lemma filter_all {A} (P : A → Prop) `{!∀ x, Decision (P x)} (l : list A) :
  (∀ x, P x) → filter P l = l.
Proof.
  intros HP. induction l as [|a l IH]; [done|].
  by rewrite filter_cons_True, IH.
Qed.

Lemma filter_none {A} (P : A → Prop) `{!∀ x, Decision (P x)} (l : list A) :
  (∀ x, x ∈ l → ¬ P x) → filter P l = [].
Proof.
  intros HP. induction l as [|a l IH]; [done|].
  rewrite filter_cons_False by (apply HP; by left).
  apply IH. intros x Hx. apply HP. by right.
Qed.

(** The loop over the ordered steps, with everything it records. *)
Lemma run_steps_records ctx ordered i e w :
  let r := (run_steps ctx ordered i e w).1 in
  ∃ results,
    completedSteps r = completedSteps e ++ results
    ∧ stepId <$> results = id <$> take (length results) ordered
    ∧ pendingSteps r
      = filter (λ s, id s ∉ stepId <$> results) (pendingSteps e)
    ∧ Types.ability r = Types.ability e
    ∧ exec_inputs r = exec_inputs e
    ∧ exec_id r = exec_id e
    ∧ exec_startedAt r = exec_startedAt e
    ∧ ((exec_status r = completed
        ∧ length results = length ordered
        ∧ Forall (λ x, status x ≠ step_failed) results
        ∧ currentStep r = None
        ∧ exec_error r = exec_error e)
       ∨ (exec_status r = failed
          ∧ ∃ init last step,
              results = init ++ [last]
              ∧ Forall (λ x, status x ≠ step_failed) init
              ∧ status last = step_failed
              ∧ stepId last = id step
              ∧ is_Some (error last)
              ∧ exec_error r = error last
              ∧ ordered !! length init = Some step
              ∧ currentStep r = Some step
              ∧ currentStepIndex r = i + Z.of_nat (length init))).
Proof.
  revert i e w. induction ordered as [|step later IH]; intros i e w r.
  - exists []. subst r. rewrite run_steps_nil.
    destruct (Date_now w) as [now w']. simpl. rewrite app_nil_r.
    split; [done|]. split; [done|].
    split; [symmetry; apply filter_all; intros x Hx; by apply elem_of_nil in Hx|].
    do 4 (split; [done|]). left. by repeat split.
  - subst r. rewrite run_steps_cons.
    destruct (executeScriptStep_shape step (enter_step e step i) ctx w)
      as (Hid & _ & Herror & _).
    destruct (executeScriptStep step (enter_step e step i) ctx w) as [result w1].
    simpl in Hid, Herror.
    destruct (decide (status result = step_failed)) as [Hfailed|Hok].
    + exists [result]. destruct (Date_now w1) as [now w2]. simpl.
      split; [done|]. split; [by rewrite Hid|].
      split.
      { apply list_filter_iff. intros s. rewrite list_elem_of_singleton.
        by rewrite Hid. }
      do 4 (split; [done|]). right. split; [done|].
      exists [], result, step. simpl.
      do 4 (split; [done|]). split; [by apply (proj1 Herror)|].
      do 3 (split; [done|]). lia.
    + destruct (IH (i + 1) (record_result (enter_step e step i) step result) w1)
        as (results & Hdone & Hids & Hpending & Hab & Hin & Hident & Hstart & Hcases).
      exists (result :: results).
      change (take (length (result :: results)) (step :: later))
        with (step :: take (length results) later).
      split; [rewrite Hdone; simpl; by rewrite <- app_assoc|].
      split; [by rewrite !fmap_cons, Hid, Hids|].
      split.
      { rewrite Hpending. cbn [pendingSteps record_result enter_step].
        rewrite list_filter_filter.
        apply list_filter_iff. intros s. rewrite fmap_cons, not_elem_of_cons.
        rewrite Hid. tauto. }
      do 4 (split; [done|]).
      destruct Hcases as [(Hst & Hlen & Hall & Hcur & Herr)
                         |(Hst & init & last & cur & -> & Hall & Hlast & Hlid
                           & Hsome & Herr & Hat & Hcur & Hidx)].
      * left. split; [done|]. split; [by simpl; rewrite Hlen|].
        split; [by constructor|]. by split.
      * right. split; [done|]. exists (result :: init), last, cur.
        split; [done|]. split; [by constructor|].
        do 6 (split; [done|]). rewrite Hidx. simpl length. lia.
Qed.

(** The same for a whole execution whose inputs pass validation. *)
Lemma executeAbility_records ability inputs ctx w :
  let e := (executeAbility ability inputs ctx w).1 in
  let ordered := buildExecutionOrder (steps ability) in
  validateInputs ability inputs = [] →
  stepId <$> completedSteps e = id <$> take (length (completedSteps e)) ordered
  ∧ pendingSteps e = filter (λ s, id s ∉ stepId <$> completedSteps e) ordered
  ∧ Types.ability e = ability
  ∧ exec_inputs e = applyDefaults ability inputs
  ∧ ((exec_status e = completed
      ∧ length (completedSteps e) = length ordered
      ∧ Forall (λ x, status x ≠ step_failed) (completedSteps e)
      ∧ currentStep e = None
      ∧ exec_error e = None)
     ∨ (exec_status e = failed
        ∧ ∃ init last step,
            completedSteps e = init ++ [last]
            ∧ Forall (λ x, status x ≠ step_failed) init
            ∧ status last = step_failed
            ∧ stepId last = id step
            ∧ is_Some (error last)
            ∧ exec_error e = error last
            ∧ ordered !! length init = Some step
            ∧ currentStep e = Some step
            ∧ currentStepIndex e = Z.of_nat (length init))).
Proof.
  intros e ordered Hvalid. subst e. unfold executeAbility.
  rewrite Hvalid. simpl.
  unfold bind. destruct (generateExecutionId w) as [ident w1].
  destruct (Date_now w1) as [started w2].
  match goal with
  | |- context [run_steps ctx ?o ?i ?e ?w] =>
      destruct (run_steps_records ctx o i e w)
        as (results & Hdone & Hids & Hpending & Hab & Hin & _ & _ & Hcases)
  end.
  simpl in Hdone, Hpending, Hab, Hin, Hcases.
  fold ordered in Hdone, Hids, Hpending, Hab, Hin, Hcases |- *.
  rewrite Hdone. do 4 (split; [done|]).
  destruct Hcases as [?|(Hst & init & last & cur & Hres & Hall & Hlast & Hlid
                         & Hsome & Herr & Hat & Hcur & Hidx)]; [by left|].
  right. split; [done|]. exists init, last, cur.
  do 8 (split; [done|]). rewrite Hidx. lia.
Qed.

Lemma executeAbility_rejected ability inputs ctx w :
  let e := (executeAbility ability inputs ctx w).1 in
  validateInputs ability inputs ≠ [] →
  exec_status e = failed ∧ completedSteps e = []
  ∧ pendingSteps e = steps ability ∧ currentStep e = None
  ∧ Types.ability e = ability ∧ is_Some (exec_error e).
Proof.
  intros e Hinvalid. subst e. unfold executeAbility.
  destruct (decide (0 < length (validateInputs ability inputs))%nat) as [_|Hlen].
  - unfold bind, ret. destruct (generateExecutionId w) as [ident w1].
    destruct (Date_now w1) as [started w2].
    destruct (Date_now w2) as [finished w3].
    simpl. do 5 (split; [done|]). by eexists.
  - destruct (validateInputs ability inputs); [done|simpl in Hlen; lia].
Qed.

(** An execution is [completed] exactly when the inputs pass validation and
    no recorded result failed; it then holds one result for each step of the
    execution order, in that order, no pending step, no current step and no
    error. *)
Theorem executeAbility_completed_iff ability inputs ctx w :
  let e := (executeAbility ability inputs ctx w).1 in
  (exec_status e = completed
   ↔ validateInputs ability inputs = []
     ∧ Forall (λ r, status r ≠ step_failed) (completedSteps e))
  ∧ (exec_status e = completed →
     stepId <$> completedSteps e = id <$> buildExecutionOrder (steps ability)
     ∧ pendingSteps e = []
     ∧ currentStep e = None
     ∧ exec_error e = None).
Proof.
  intros e.
  destruct (decide (validateInputs ability inputs = [])) as [Hvalid|Hinvalid].
  - destruct (executeAbility_records ability inputs ctx w Hvalid)
      as (Hids & Hpending & _ & _ & Hcases).
    fold e in Hids, Hpending, Hcases.
    destruct Hcases as [(Hst & Hlen & Hall & Hcur & Herr)
                       |(Hst & init & last & cur & Hres & Hall & Hlast & _)].
    + split; [by split|]. intros _.
      rewrite Hlen, firstn_all in Hids.
      split; [done|]. split; [|done].
      rewrite Hpending, Hids. apply filter_none.
      intros s Hs Hn. apply Hn. apply list_elem_of_fmap. by exists s.
    + split; [|by rewrite Hst].
      rewrite Hst. split; [done|]. intros [_ Hok]. rewrite Hres in Hok.
      apply Forall_app in Hok as [_ Hok]. by inversion Hok.
  - destruct (executeAbility_rejected ability inputs ctx w Hinvalid)
      as (Hst & _). fold e in Hst. rewrite Hst.
    split; [|done]. split; [done|]. by intros [? _].
Qed.

(** An execution has an error exactly when it failed. *)
Theorem executeAbility_failed_iff_error ability inputs ctx w :
  let e := (executeAbility ability inputs ctx w).1 in
  exec_status e = failed ↔ is_Some (exec_error e).
Proof.
  intros e.
  destruct (decide (validateInputs ability inputs = [])) as [Hvalid|Hinvalid].
  - destruct (executeAbility_records ability inputs ctx w Hvalid)
      as (_ & _ & _ & _ & Hcases). fold e in Hcases.
    destruct Hcases as [(Hst & _ & _ & _ & Herr)
                       |(Hst & init & last & cur & _ & _ & _ & _ & Hsome & Herr & _)].
    + rewrite Hst, Herr. split; [done|]. by intros [? ?].
    + by rewrite Hst, Herr.
  - destruct (executeAbility_rejected ability inputs ctx w Hinvalid)
      as (Hst & _ & _ & _ & _ & Herr). fold e in Hst, Herr. by rewrite Hst.
Qed.

(** What an execution keeps on record, whatever its outcome: no more
    results than steps; every result belongs to a step of the ability; the
    pending steps are steps of the ability without a result; and, when the
    inputs pass validation, a step of the execution order is pending exactly
    when it has no result. *)
Theorem executeAbility_pending_partition ability inputs ctx w :
  let e := (executeAbility ability inputs ctx w).1 in
  (length (completedSteps e) ≤ length (steps ability))%nat
  ∧ (∀ r, r ∈ completedSteps e → ∃ s, s ∈ steps ability ∧ id s = stepId r)
  ∧ (∀ s, s ∈ pendingSteps e →
       s ∈ steps ability ∧ id s ∉ stepId <$> completedSteps e)
  ∧ (validateInputs ability inputs = [] →
     ∀ s, s ∈ buildExecutionOrder (steps ability) →
       s ∈ pendingSteps e ↔ id s ∉ stepId <$> completedSteps e).
Proof.
  intros e.
  destruct (order_loop_safe (steps ability) (length (steps ability)) [] ∅
              (steps ability) (le_n _) (initial_loop_inv (steps ability)))
    as (dropped & Hperm & _).
  fold (buildExecutionOrder (steps ability)) in Hperm.
  assert (Hsub : ∀ s, s ∈ buildExecutionOrder (steps ability) → s ∈ steps ability).
  { intros s Hs. rewrite <- Hperm. apply elem_of_app. by left. }
  assert (Hlen : (length (buildExecutionOrder (steps ability))
                  ≤ length (steps ability))%nat).
  { apply Permutation_length in Hperm. rewrite length_app in Hperm. lia. }
  destruct (decide (validateInputs ability inputs = [])) as [Hvalid|Hinvalid].
  - destruct (executeAbility_records ability inputs ctx w Hvalid)
      as (Hids & Hpending & _). fold e in Hids, Hpending.
    assert (Hshort : (length (completedSteps e)
                      ≤ length (buildExecutionOrder (steps ability)))%nat).
    { apply (f_equal length) in Hids. rewrite !length_fmap, length_take in Hids.
      lia. }
    split; [lia|]. split; [|split].
    + intros r Hr.
      assert (Hin : stepId r ∈ stepId <$> completedSteps e).
      { apply list_elem_of_fmap. by exists r. }
      rewrite Hids in Hin. apply list_elem_of_fmap in Hin as (s & Heq & Hs).
      exists s. split; [|done]. apply Hsub.
      apply list_elem_of_lookup in Hs as [k Hk].
      apply lookup_take_Some in Hk as [Hk _].
      apply list_elem_of_lookup. by exists k.
    + intros s Hs. rewrite Hpending in Hs.
      apply list_elem_of_filter in Hs as [Hfresh Hs]. split; [by apply Hsub|done].
    + intros _ s Hs. rewrite Hpending at 1. rewrite list_elem_of_filter. tauto.
  - destruct (executeAbility_rejected ability inputs ctx w Hinvalid)
      as (_ & Hdone & Hpending & _). fold e in Hdone, Hpending.
    rewrite Hdone, Hpending. simpl. split; [lia|]. split; [|split].
    + intros r Hr. by apply elem_of_nil in Hr.
    + intros s Hs. split; [done|]. apply not_elem_of_nil.
    + done.
Qed.

(** When an execution fails at a step, that step stays the current one: its
    result is the last recorded, it failed, its error is the execution's
    error, and [currentStepIndex] is its position in the execution order,
    one less than the number of results. *)
Theorem executeAbility_failed_step_is_current ability inputs ctx w :
  let e := (executeAbility ability inputs ctx w).1 in
  exec_status e = failed → completedSteps e ≠ [] →
  ∃ step result,
    currentStep e = Some step
    ∧ last (completedSteps e) = Some result
    ∧ stepId result = id step
    ∧ status result = step_failed
    ∧ exec_error e = error result
    ∧ currentStepIndex e = Z.of_nat (length (completedSteps e)) - 1
    ∧ buildExecutionOrder (steps ability) !! Z.to_nat (currentStepIndex e)
      = Some step
    ∧ step ∉ pendingSteps e.
Proof.
  intros e Hfailed Hresults.
  destruct (decide (validateInputs ability inputs = [])) as [Hvalid|Hinvalid].
  - destruct (executeAbility_records ability inputs ctx w Hvalid)
      as (_ & Hpending & _ & _ & Hcases). fold e in Hpending, Hcases.
    destruct Hcases as [(Hst & _)
                       |(_ & init & result & step & Hres & _ & Hlast & Hid & _
                         & Herr & Hat & Hcur & Hidx)]; [congruence|].
    exists step, result. split; [done|].
    split; [by rewrite Hres, last_snoc|]. do 3 (split; [done|]).
    split; [rewrite Hidx, Hres, length_app; simpl; lia|].
    split; [by rewrite Hidx, Nat2Z.id|].
    rewrite Hpending. intros Hin. apply list_elem_of_filter in Hin as [Hfresh _].
    apply Hfresh. rewrite Hres, fmap_app. apply elem_of_app. right.
    simpl. rewrite Hid. by left.
  - destruct (executeAbility_rejected ability inputs ctx w Hinvalid)
      as (_ & Hdone & _). by fold e in Hdone.
Qed.

End record_facts.

Lemma executeAbility_failed_step_is_current_witness :
  let e := (@executeAbility clock_host scenario_A ∅ the_ctx 100).1 in
  ∃ step result,
    currentStep e = Some step
    ∧ last (completedSteps e) = Some result
    ∧ stepId result = id step
    ∧ status result = step_failed
    ∧ exec_error e = error result
    ∧ currentStepIndex e = Z.of_nat (length (completedSteps e)) - 1
    ∧ buildExecutionOrder (steps scenario_A) !! Z.to_nat (currentStepIndex e)
      = Some step
    ∧ step ∉ pendingSteps e.
Proof.
  apply (@executeAbility_failed_step_is_current clock_host scenario_A ∅ the_ctx 100).
  - by vm_compute.
  - by vm_compute.
Defined.

(** ** The enforcement modes *)

Section gate_facts.

Lemma always_allowed_not_destructive tool :
  tool ∈ ALWAYS_ALLOWED_TOOLS → tool ∉ destructiveTools.
Proof.
  unfold ALWAYS_ALLOWED_TOOLS, destructiveTools. intros Hin.
  repeat (apply elem_of_cons in Hin as [->|Hin]; [compute_done|]).
  by apply elem_of_nil in Hin.
Qed.

(** The three modes are nested: no configured mode means [strict]; [loose]
    blocks nothing; whatever [strict] lets through, [normal] lets through. *)
Theorem enforcement_modes_nest (manager : ExecutionManager)
    (store : gmap nat AbilityExecution) (tool : string) :
  let gate mode :=
    handleToolExecuteBefore
      {| executionManager := manager; config_enforcement := mode |} store tool in
  gate None = gate (Some strict)
  ∧ gate (Some loose) = Returned ()
  ∧ (gate (Some strict) = Returned () → gate (Some normal) = Returned ()).
Proof.
  intros gate. subst gate. unfold handleToolExecuteBefore. simpl.
  destruct (getActive manager ≫= _) as [execution|]; [|done].
  destruct (currentStep execution) as [step|]; [|done].
  split; [done|]. split; [done|].
  destruct (bool_decide (tool ∈ ALWAYS_ALLOWED_TOOLS)); [done|].
  destruct (allowedTools_for (step_type step)) as [tools|m|]; simpl; [|done..].
  destruct (bool_decide (tool ∈ tools)); [|done].
  intros _. by destruct (bool_decide (tool ∈ destructiveTools)).
Qed.

(** The gate throws only while an execution with a current step is active,
    in a mode other than [loose], for a tool that is neither always allowed
    nor allowed for the type of that step.  The error names the tool, the
    type of the step and its id, unless the type of the step is the name of
    a member of [Object.prototype]: the allowed tools are then read from
    that member, and the gate throws on the call of [includes]. *)
Theorem gate_denial_names_tool_and_step plugin store tool msg :
  handleToolExecuteBefore plugin store tool = Thrown msg →
  ∃ ref execution step,
    getActive (executionManager plugin) = Some ref
    ∧ store !! ref = Some execution
    ∧ currentStep execution = Some step
    ∧ default strict (config_enforcement plugin) ≠ loose
    ∧ (tool ∉ ALWAYS_ALLOWED_TOOLS)
    ∧ (tool ∉ default [] (lookup_key (step_type step) ALLOWED_TOOLS_BY_STEP_TYPE))
    ∧ match allowedTools_for (step_type step) with
      | Inherited _ => msg = "allowedTools.includes is not a function"
      | _ =>
          ∃ pre post,
            msg = pre +:+ "'" +:+ tool +:+ "' blocked during "
                  +:+ step_type step +:+ " step '" +:+ id step +:+ "'." +:+ post
      end.
Proof.
  unfold handleToolExecuteBefore.
  destruct (getActive (executionManager plugin)) as [ref|] eqn:Href; [|done].
  simpl. destruct (store !! ref) as [execution|] eqn:Hstore; [|done].
  destruct (currentStep execution) as [step|] eqn:Hstep; [|done].
  destruct (decide _) as [|Hmode]; [done|].
  destruct (bool_decide (tool ∈ ALWAYS_ALLOWED_TOOLS)) eqn:Halways; [done|].
  apply bool_decide_eq_false_1 in Halways.
  intros Hthrown. exists ref, execution, step. do 5 (split; [done|]).
  assert (Hcases :
    match allowedTools_for (step_type step) with
    | Own tools =>
        lookup_key (step_type step) ALLOWED_TOOLS_BY_STEP_TYPE = Some tools
    | _ => lookup_key (step_type step) ALLOWED_TOOLS_BY_STEP_TYPE = None
    end).
  { unfold allowedTools_for, read.
    destruct (lookup_key (step_type step) ALLOWED_TOOLS_BY_STEP_TYPE); [done|].
    by destruct (member_named (step_type step) Object_prototype). }
  assert (Hstrict : ∀ text,
    match includes (allowedTools_for (step_type step)) tool with
    | Thrown m => Thrown m
    | Returned true => Returned ()
    | Returned false => Thrown text
    end = Thrown msg →
    (tool ∉ default [] (lookup_key (step_type step) ALLOWED_TOOLS_BY_STEP_TYPE))
    ∧ match allowedTools_for (step_type step) with
      | Inherited _ => msg = "allowedTools.includes is not a function"
      | _ => msg = text
      end).
  { intros text.
    destruct (allowedTools_for (step_type step)) as [tools|m|];
      cbn [includes]; rewrite Hcases; cbn [default].
    - destruct (bool_decide (tool ∈ tools)) eqn:Hallowed; [done|].
      apply bool_decide_eq_false_1 in Hallowed. by intros [= <-].
    - intros [= <-]. split; [apply not_elem_of_nil|done].
    - intros [= <-]. split; [apply not_elem_of_nil|done]. }
  destruct (default strict (config_enforcement plugin)); [| |done].
  - apply Hstrict in Hthrown as [Hallowed Hmsg]. split; [done|].
    destruct (allowedTools_for (step_type step)); [|done|];
      (exists "[abilities] Tool ", (" " +:+ getStepTypeBlockMessage step);
       by rewrite Hmsg).
  - destruct (bool_decide (tool ∈ destructiveTools)); [|done].
    apply Hstrict in Hthrown as [Hallowed Hmsg]. split; [done|].
    destruct (allowedTools_for (step_type step)); [|done|];
      (exists "[abilities] Destructive tool ", ""; rewrite Hmsg; simpl;
       by rewrite append_nil_r).
Qed.

(** Under [normal] enforcement, while a step is current, a tool passes
    exactly when it is not one of [write], [edit], [bash], [task], or is
    allowed for the type of the step. *)
Theorem normal_gate_blocks_destructive plugin store ref execution step tool :
  getActive (executionManager plugin) = Some ref →
  store !! ref = Some execution →
  currentStep execution = Some step →
  config_enforcement plugin = Some normal →
  handleToolExecuteBefore plugin store tool = Returned ()
  ↔ tool ∉ destructiveTools
    ∨ tool ∈ default [] (lookup_key (step_type step) ALLOWED_TOOLS_BY_STEP_TYPE).
Proof.
  intros Href Hstore Hstep Hmode. unfold handleToolExecuteBefore.
  rewrite Href. cbn [mbind option_bind]. rewrite Hstore, Hstep, Hmode.
  cbn [default]. destruct (decide (normal = loose)) as [|_]; [done|].
  destruct (bool_decide (tool ∈ ALWAYS_ALLOWED_TOOLS)) eqn:Halways.
  - apply bool_decide_eq_true_1 in Halways.
    split; [|done]. intros _. left. by apply always_allowed_not_destructive.
  - destruct (bool_decide (tool ∈ destructiveTools)) eqn:Hdestructive;
      [apply bool_decide_eq_true_1 in Hdestructive
      |apply bool_decide_eq_false_1 in Hdestructive].
    + unfold allowedTools_for, read.
      destruct (lookup_key (step_type step) ALLOWED_TOOLS_BY_STEP_TYPE)
        as [tools|]; cbn [includes default].
      * destruct (bool_decide (tool ∈ tools)) eqn:Hallowed;
          [apply bool_decide_eq_true_1 in Hallowed
          |apply bool_decide_eq_false_1 in Hallowed].
        -- split; [by right|done].
        -- split; [done|]. by intros [?|?].
      * assert (Hno : ¬ (tool ∉ destructiveTools ∨ tool ∈ @nil string)).
        { intros [?|Hnil]; [done|by apply elem_of_nil in Hnil]. }
        destruct (member_named (step_type step) Object_prototype);
          cbn [includes]; (split; [done|by intros ?]).
    + split; [by left|done].
Qed.

End gate_facts.

Lemma gate_denial_names_tool_and_step_witness :
  ∃ ref execution step,
    getActive (executionManager default_plugin) = Some ref
    ∧ busy_store !! ref = Some execution
    ∧ currentStep execution = Some step
    ∧ default strict (config_enforcement default_plugin) ≠ loose
    ∧ ("bash" ∉ ALWAYS_ALLOWED_TOOLS)
    ∧ ("bash" ∉ default [] (lookup_key (step_type step) ALLOWED_TOOLS_BY_STEP_TYPE))
    ∧ match allowedTools_for (step_type step) with
      | Inherited _ =>
          "[abilities] Tool 'bash' blocked during script step 'a'. "
            +:+ "Script steps run deterministically - wait for completion."
          = "allowedTools.includes is not a function"
      | _ =>
          ∃ pre post,
            "[abilities] Tool 'bash' blocked during script step 'a'. "
              +:+ "Script steps run deterministically - wait for completion."
            = pre +:+ "'" +:+ "bash" +:+ "' blocked during " +:+ step_type step
              +:+ " step '" +:+ id step +:+ "'." +:+ post
      end.
Proof.
  apply (gate_denial_names_tool_and_step default_plugin busy_store "bash").
  reflexivity.
Defined.

Lemma normal_gate_blocks_destructive_witness :
  handleToolExecuteBefore
    {| executionManager := busy_manager; config_enforcement := Some normal |}
    busy_store "webfetch" = Returned ().
Proof.
  apply (normal_gate_blocks_destructive
           {| executionManager := busy_manager; config_enforcement := Some normal |}
           busy_store 0%nat mid_run (script "a" "exit 1" None (Some 0) None)
           "webfetch"); try reflexivity.
  left. compute_done.
Defined.

(** ** The manager across calls *)

Section manager_calls.
Context `{Host}.

Lemma execute_admitted manager store ability inputs ctx w :
  running_ability manager store = None →
  execute manager store ability inputs ctx w
  = ((Returned (fresh (dom store)), {| activeExecution := None |},
      <[fresh (dom store) := (executeAbility ability inputs ctx w).1]> store),
     (executeAbility ability inputs ctx w).2).
Proof.
  intros Hidle. unfold execute. rewrite Hidle. unfold bind, ret.
  pose proof (executeAbility_terminal ability inputs ctx w) as (_ & Hrun & _).
  destruct (executeAbility ability inputs ctx w) as [execution w1]. simpl in *.
  by destruct (decide (exec_status execution ≠ running)).
Qed.

(** Once [execute] has returned, nothing is left to enforce or to cancel:
    the gate lets every tool through in every mode, and [cancel] returns
    [false] and changes nothing. *)
Theorem gate_open_after_execute manager store ability inputs ctx w :
  running_ability manager store = None →
  let r := execute manager store ability inputs ctx w in
  (∃ ref, r.1.1.1 = Returned ref)
  ∧ (∀ mode tool,
       handleToolExecuteBefore
         {| executionManager := r.1.1.2; config_enforcement := mode |}
         r.1.2 tool = Returned ())
  ∧ cancel r.1.1.2 r.1.2 r.2 = ((false, r.1.1.2, r.1.2), r.2).
Proof.
  intros Hidle r. subst r. rewrite execute_admitted by done. simpl.
  split; [by eexists|]. by split.
Qed.

(** After [cancel], whatever it returned, no execution is running: a second
    [cancel] returns [false] and changes nothing, and [execute] is admitted. *)
Theorem cancel_leaves_manager_idle manager store w :
  let r := cancel manager store w in
  running_ability r.1.1.2 r.1.2 = None
  ∧ (∀ w', cancel r.1.1.2 r.1.2 w' = ((false, r.1.1.2, r.1.2), w'))
  ∧ (∀ ability inputs ctx w',
       ∃ ref, (execute r.1.1.2 r.1.2 ability inputs ctx w').1.1.1 = Returned ref).
Proof.
  intros r.
  assert (Hidle : running_ability r.1.1.2 r.1.2 = None
                  ∧ ∀ w', cancel r.1.1.2 r.1.2 w' = ((false, r.1.1.2, r.1.2), w')).
  { subst r. unfold cancel, running_ability.
    destruct (activeExecution manager) as [ref|] eqn:Hactive.
    - destruct (store !! ref) as [active|] eqn:Hstore.
      + destruct (decide (exec_status active = running)) as [Hrun|Hrun].
        * unfold bind, ret. by destruct (Date_now w).
        * simpl. rewrite Hactive. simpl. rewrite Hstore.
          by destruct (decide (exec_status active = running)).
      + simpl. rewrite Hactive. simpl. by rewrite Hstore.
    - simpl. by rewrite Hactive. }
  destruct Hidle as [Hidle Hagain]. split; [done|]. split; [done|].
  intros ability inputs ctx w'. rewrite execute_admitted by done. by eexists.
Qed.

End manager_calls.

Lemma gate_open_after_execute_witness :
  let r := @execute clock_host idle_manager ∅ scenario_A ∅ the_ctx 100 in
  (∃ ref, r.1.1.1 = Returned ref)
  ∧ (∀ mode tool,
       handleToolExecuteBefore
         {| executionManager := r.1.1.2; config_enforcement := mode |}
         r.1.2 tool = Returned ())
  ∧ @cancel clock_host r.1.1.2 r.1.2 r.2 = ((false, r.1.1.2, r.1.2), r.2).
Proof.
  apply (@gate_open_after_execute clock_host idle_manager ∅ scenario_A ∅ the_ctx 100).
  reflexivity.
Defined.
